(** * Smart Link Decorator: a shallow embedding of the link pipeline

    The development follows the TypeScript sources of the plugin:

    - [JS]: the ECMAScript string operations the sources rely on, over
      sequences of UTF-16 code units;
    - [parse]: [lib/utils/parse.ts], the wiki link regular expression;
    - [SettingsFacet]: [lib/cm/SettingsFacet.ts], the merge of the
      contributed rule arrays;
    - [buildDecorations]: [lib/cm/buildDecorations.ts], the tree matcher,
      the link walker and the annotation builder;
    - [CMLinkDecoratorPlugin]: [lib/cm/CMLinkDecoratorPlugin.ts];
    - [CMLinkAliasReplacementPlugin]: [lib/cm/CMLinkAliasReplacementPlugin.ts],
      the alias replacement view plugin.

    The embedding comes first.  The facts about it follow, one section per
    component, and the last section applies the theorems to the documents
    and rules of the plugin's own tests and examples. *)

From Stdlib Require Import ZArith NArith List Sorted Bool Lia String Ascii.
From Stdlib Require QArith.
From stdpp Require Import base decidable option list gmap.

Open Scope Z_scope.

(* ===================================================================== *)
(** * ECMAScript strings *)
(* ===================================================================== *)

Module JS.

(** A JavaScript string is a sequence of UTF-16 code units; [length],
    [slice], [indexOf] and the editor's document offsets all count code
    units. *)
Definition jsstring := list N.

(** An ASCII literal as a JavaScript string. *)
Definition lit (s : string) : jsstring :=
  List.map N_of_ascii (list_ascii_of_string s).

(** [s.length] *)
Definition length (s : jsstring) : Z := Z.of_nat (List.length s).

(** [a === b] on strings. *)
Fixpoint eqb (a b : jsstring) : bool :=
  match a, b with
  | [], [] => true
  | x :: a', y :: b' => N.eqb x y && eqb a' b'
  | _, _ => false
  end.

(** [s.startsWith(pat)] (no position argument). *)
Fixpoint startsWith (s pat : jsstring) : bool :=
  match pat, s with
  | [], _ => true
  | p :: pat', c :: s' => N.eqb c p && startsWith s' pat'
  | _ :: _, [] => false
  end.

(** [s.endsWith(pat)] (no position argument). *)
Definition endsWith (s pat : jsstring) : bool :=
  startsWith (rev s) (rev pat).

(** [min(max(pos, lo), hi)], the clamping of an index argument. *)
Definition clamp (pos lo hi : Z) : Z := Z.min (Z.max pos lo) hi.

(** The code units of [s] from offset [a] up to, not including, offset [b]. *)
Definition units (s : jsstring) (a b : Z) : jsstring :=
  firstn (Z.to_nat (b - a)) (skipn (Z.to_nat a) s).

(** A relative index of [slice]: negative values count from the end. *)
Definition relative (len i : Z) : Z :=
  if i <? 0 then Z.max (len + i) 0 else Z.min i len.

(** [s.slice(start, end)] *)
Definition slice (s : jsstring) (start end_ : Z) : jsstring :=
  let len := length s in
  let from := relative len start in
  let to := relative len end_ in
  units s from (from + Z.max (to - from) 0).

(** The first offset [k >= start] at which [pat] occurs in the rest [s] of
    the string, [s] starting at offset [start]. *)
Fixpoint indexOf_from (s pat : jsstring) (start : nat) : option nat :=
  if startsWith s pat then Some start
  else match s with
       | [] => None
       | _ :: s' => indexOf_from s' pat (S start)
       end.

(** [s.indexOf(pat, pos)] *)
Definition indexOf (s pat : jsstring) (pos : Z) : Z :=
  let start := Z.to_nat (clamp pos 0 (length s)) in
  match indexOf_from (skipn start s) pat start with
  | Some k => Z.of_nat k
  | None => -1
  end.

(** The largest offset [k <= start] at which [pat] occurs in [s]. *)
Fixpoint lastIndexOf_down (s pat : jsstring) (start : nat) : option nat :=
  if startsWith (skipn start s) pat then Some start
  else match start with
       | O => None
       | S k => lastIndexOf_down s pat k
       end.

(** [s.lastIndexOf(pat, pos)] *)
Definition lastIndexOf (s pat : jsstring) (pos : Z) : Z :=
  let start := Z.to_nat (clamp pos 0 (length s)) in
  match lastIndexOf_down s pat start with
  | Some k => Z.of_nat k
  | None => -1
  end.

(** [s.split(sep)] for a separator of one code unit. *)
Fixpoint split (sep : N) (s : jsstring) : list jsstring :=
  match s with
  | [] => [[]]
  | c :: s' =>
      if N.eqb c sep then [] :: split sep s'
      else match split sep s' with
           | f :: fs => (c :: f) :: fs
           | [] => [[c]]
           end
  end.

(** [xs.includes(x)] on an array of strings. *)
Definition includes (xs : list jsstring) (x : jsstring) : bool :=
  existsb (eqb x) xs.

(** [xs.find(p)] *)
Definition find {A} (p : A -> bool) (xs : list A) : option A :=
  List.find p xs.

End JS.

Abbreviation jsstring := JS.jsstring.

(* ===================================================================== *)
(** * lib/utils/parse.ts *)
(* ===================================================================== *)

Module parse.

(** The fragment of regular expressions [WIKI_LINK_REGEX] is written in:
    a pattern anchored at both ends ([^] ... [$], no flags) whose items
    are literal code units and capture groups holding a greedy star over
    a negated character class. *)
Inductive item :=
| Chr (c : N)
| GroupStarNot (excluded : list N).

Definition in_class (excluded : list N) (c : N) : bool :=
  negb (existsb (N.eqb c) excluded).

(** Backtracking match of the items against the whole of [s]; the result
    lists the captures in group order.  A star first tries to take one
    more code unit and falls back to stopping where it is. *)
Fixpoint exec (items : list item) (s : jsstring) : option (list jsstring) :=
  match items with
  | [] => match s with [] => Some [] | _ :: _ => None end
  | Chr c :: rest =>
      match s with
      | x :: s' => if N.eqb x c then exec rest s' else None
      | [] => None
      end
  | GroupStarNot excluded :: rest =>
      (fix star (s : jsstring) : option (list jsstring) :=
         let stop := option_map (cons []) (exec rest s) in
         match s with
         | x :: s' =>
             if in_class excluded x then
               match star s' with
               | Some (g :: gs) => Some ((x :: g) :: gs)
               | _ => stop
               end
             else stop
         | [] => stop
         end) s
  end.

Definition LBRACKET : N := 91.
Definition RBRACKET : N := 93.
Definition PIPE : N := 124.

(** The pattern of the source, item by item:
    [^ \[ \[ ( [^|\]]* ) \| ( [^\]]* ) \] \] $]. *)
Definition WIKI_LINK_REGEX : list item :=
  [ Chr LBRACKET; Chr LBRACKET;
    GroupStarNot [PIPE; RBRACKET];
    Chr PIPE;
    GroupStarNot [RBRACKET];
    Chr RBRACKET; Chr RBRACKET ].

(** [linkString.match(WIKI_LINK_REGEX)]: [None] is JavaScript's [null],
    otherwise the captures [match[1]], [match[2]]. *)
Definition match_ (linkString : jsstring) : option (list jsstring) :=
  exec WIKI_LINK_REGEX linkString.

Definition parseWikiLink (linkString : jsstring) : jsstring * jsstring :=
  let match_ := match_ linkString in
  let filename := default [] (match_ ≫= (fun m => m !! 0%nat)) in
  let alias := default [] (match_ ≫= (fun m => m !! 1%nat)) in
  (filename, alias).

End parse.

(* ===================================================================== *)
(** * lib/types/PrefixMapping.ts *)
(* ===================================================================== *)

Module PrefixMapping.

(** [backgroundAlpha] is a number between 0 and 1; no operation of this
    development computes with it, it is carried as a rational. *)
Record t := {
  prefix : jsstring;
  emoji : jsstring;
  linkType : jsstring;
  color : jsstring;
  background : jsstring;
  backgroundAlpha : QArith_base.Q;
  underline : bool
}.

End PrefixMapping.

(* ===================================================================== *)
(** * lib/cm/SettingsFacet.ts *)
(* ===================================================================== *)

Module SettingsFacet.

(** A JavaScript [Map] with string keys: its entries in insertion order,
    one entry per key. *)
Definition Map (V : Type) := list (jsstring * V).

(** [m.set(k, v)]: the value of an existing key is replaced where the
    entry stands, a new key is appended. *)
Fixpoint Map_set {V} (m : Map V) (k : jsstring) (v : V) : Map V :=
  match m with
  | [] => [(k, v)]
  | (k', v') :: m' =>
      if JS.eqb k' k then (k', v) :: m' else (k', v') :: Map_set m' k v
  end.

(** [Array.from(m.values())] *)
Definition Map_values {V} (m : Map V) : list V := List.map snd m.

(** The [combine] function of [SLD_SettingsFacet]. *)
Definition combine (values : list (list PrefixMapping.t)) : list PrefixMapping.t :=
  let byPrefix :=
    fold_left
      (fun byPrefix mappings =>
         fold_left
           (fun byPrefix mapping =>
              Map_set byPrefix (PrefixMapping.prefix mapping) mapping)
           mappings byPrefix)
      values [] in
  Map_values byPrefix.

End SettingsFacet.

(* ===================================================================== *)
(** * The editor, as far as the plugins use it *)
(* ===================================================================== *)

Module Editor.

(** A node of the syntax tree as the cursor interface presents it: the
    name of its type, its document range and its children. *)
#[local] Set Warnings "-register-all".
Inductive SyntaxNode :=
| Node (name : jsstring) (from to : Z) (children : list SyntaxNode).

Definition name (n : SyntaxNode) : jsstring := let (x, _, _, _) := n in x.
Definition from (n : SyntaxNode) : Z := let (_, x, _, _) := n in x.
Definition to (n : SyntaxNode) : Z := let (_, _, x, _) := n in x.
Definition children (n : SyntaxNode) : list SyntaxNode := let (_, _, _, x) := n in x.

(** One range of a selection. *)
Record SelectionRange := { range_from : Z; range_to : Z }.

(** [range.empty] *)
Definition empty (r : SelectionRange) : bool := range_from r =? range_to r.

Record EditorSelection := { main : SelectionRange; others : list SelectionRange }.

(** An editor state: the document text, the selection, the syntax tree of
    the document, and the inputs of [SLD_SettingsFacet] together with the
    identity of the array the facet holds for them. *)
Record EditorState := {
  doc : jsstring;
  selection : EditorSelection;
  tree : SyntaxNode;
  settings_inputs : list (list PrefixMapping.t);
  settings_ref : nat
}.

(** [state.facet(SLD_SettingsFacet)]: the combined array. *)
Definition facet (st : EditorState) : list PrefixMapping.t :=
  SettingsFacet.combine (settings_inputs st).

(** [doc.sliceString(from, to)]; the offsets are clipped to the document. *)
Definition sliceString (d : jsstring) (from to : Z) : jsstring :=
  let from := JS.clamp from 0 (JS.length d) in
  let to := Z.max from (JS.clamp to 0 (JS.length d)) in
  JS.units d from to.

(** [state.sliceDoc(from, to)] *)
Definition sliceDoc (st : EditorState) (from to : Z) : jsstring :=
  sliceString (doc st) from to.

Record Transaction := { userEvent : option jsstring }.

(** [tr.isUserEvent(event)]: the transaction's user event is [event] or
    one of its dotted sub-events. *)
Definition isUserEvent (tr : Transaction) (event : jsstring) : bool :=
  match userEvent tr with
  | None => false
  | Some e =>
      JS.eqb e event
      || ((JS.length event <? JS.length e)
          && JS.eqb (JS.slice e 0 (JS.length event)) event
          && JS.eqb (JS.units e (JS.length event) (JS.length event + 1)) (JS.lit "."))
  end.

Record EditorView := { state : EditorState }.

Record ViewUpdate := {
  view : EditorView;
  startState : EditorState;
  update_state : EditorState;
  transactions : list Transaction;
  docChanged : bool;
  viewportChanged : bool;
  selectionSet : bool
}.

(** The argument of [view.dispatch] as the plugin builds it: one replaced
    range, the selection to set and the user event. *)
Record TransactionSpec := {
  changes_from : Z;
  changes_to : Z;
  changes_insert : jsstring;
  spec_selection : EditorSelection;
  spec_userEvent : jsstring
}.

(** The document after the change of a dispatched specification; the
    editor refuses a range that does not lie in the document. *)
Definition applyChanges (d : jsstring) (spec : TransactionSpec) : option jsstring :=
  let from := changes_from spec in
  let to := changes_to spec in
  if (0 <=? from) && (from <=? to) && (to <=? JS.length d)
  then Some (JS.units d 0 from ++ changes_insert spec ++ JS.units d to (JS.length d))
  else None.

End Editor.

(* ===================================================================== *)
(** * lib/cm/buildDecorations.ts *)
(* ===================================================================== *)

Module buildDecorations.

Import Editor.

(** ** Tree cursors

    A [TreeCursor] is a mutable object.  Its position is kept as a zipper:
    the node it stands on with the siblings before (nearest first) and
    after it, and the same for each ancestor. *)
Record Level := {
  node : SyntaxNode;
  before : list SyntaxNode;
  after : list SyntaxNode
}.

Record TreeCursor := { level : Level; above : list Level }.

(** The store of cursor objects; a reference is an index into it. *)
Abbreviation Heap := (list TreeCursor).
Abbreviation ref := nat.

(** Computations over the store.  [None] stands for the use of a reference
    that denotes no object, which JavaScript cannot express, and for a
    traversal that was given too little fuel; [traverse_total] below shows
    that the fuel [findWikiLinks] hands out is enough. *)
Definition M (A : Type) := Heap -> option (A * Heap).

Definition ret {A} (a : A) : M A := fun h => Some (a, h).

Definition bind {A B} (m : M A) (k : A -> M B) : M B :=
  fun h => match m h with
           | Some (a, h') => k a h'
           | None => None
           end.

Notation "x <-- m ;; k" := (bind m (fun x => k))
  (at level 100, m at next level, right associativity).

(** Reading the position of a cursor object. *)
Definition position (cursor : ref) : M TreeCursor :=
  fun h => match h !! cursor with
           | Some c => Some (c, h)
           | None => None
           end.

(** [new TreeCursor] at a given position. *)
Definition alloc (c : TreeCursor) : M ref :=
  fun h => Some (List.length h, h ++ [c]).

(** [cursor.node.cursor()]: a new cursor object on the same node. *)
Definition node_cursor (cursor : ref) : M ref :=
  c <-- position cursor ;; alloc c.

(** [tree.cursor()]: a new cursor object on the top node. *)
Definition tree_cursor (t : SyntaxNode) : M ref :=
  alloc {| level := {| node := t; before := []; after := [] |}; above := [] |}.

(** [cursor.nextSibling()] moves the cursor object and answers [true], or
    leaves it where it is and answers [false]. *)
Definition nextSibling (cursor : ref) : M bool :=
  fun h => match h !! cursor with
           | Some c =>
               match after (level c) with
               | n :: rest =>
                   let l := {| node := n;
                               before := node (level c) :: before (level c);
                               after := rest |} in
                   Some (true, <[cursor := {| level := l; above := above c |}]> h)
               | [] => Some (false, h)
               end
           | None => None
           end.

(** [cursor.firstChild()] *)
Definition firstChild (cursor : ref) : M bool :=
  fun h => match h !! cursor with
           | Some c =>
               match children (node (level c)) with
               | n :: rest =>
                   let l := {| node := n; before := []; after := rest |} in
                   Some (true, <[cursor := {| level := l; above := level c :: above c |}]> h)
               | [] => Some (false, h)
               end
           | None => None
           end.

(** [cursor.parent()] *)
Definition parent (cursor : ref) : M bool :=
  fun h => match h !! cursor with
           | Some c =>
               match above c with
               | l :: ls => Some (true, <[cursor := {| level := l; above := ls |}]> h)
               | [] => Some (false, h)
               end
           | None => None
           end.

(** ** Node types *)

Definition FLINK : jsstring := JS.lit "formatting-link".
Definition FLINKSTART : jsstring := JS.lit "formatting-link-start".
Definition FLINKEND : jsstring := JS.lit "formatting-link-end".
Definition ILINK : jsstring := JS.lit "hmd-internal-link".
Definition LINKHASALIAS : jsstring := JS.lit "link-has-alias".
Definition LINKALIASPIPE : jsstring := JS.lit "link-alias-pipe".
Definition LINKALIAS : jsstring := JS.lit "link-alias".

Definition UNDERSCORE : N := 95.

Definition getFragments (cursor : ref) : M (list jsstring) :=
  c <-- position cursor ;;
  ret (JS.split UNDERSCORE (name (node (level c)))).

Definition isFLinkStart (fragments : list jsstring) : bool :=
  JS.includes fragments FLINK && JS.includes fragments FLINKSTART.

Definition isFLinkEnd (fragments : list jsstring) : bool :=
  JS.includes fragments FLINK && JS.includes fragments FLINKEND.

Definition isInternalLinkWithAlias (fragments : list jsstring) : bool :=
  JS.includes fragments ILINK && JS.includes fragments LINKHASALIAS.

Definition isInternalLinksPipe (fragments : list jsstring) : bool :=
  JS.includes fragments ILINK && JS.includes fragments LINKALIASPIPE.

Definition isInternalLinksAlias (fragments : list jsstring) : bool :=
  JS.includes fragments ILINK && JS.includes fragments LINKALIAS.

(** ** The tree matcher *)

Definition onMatchContinue (cursor : ref)
    (match_ : list jsstring -> bool)
    (next : ref -> M (option ref)) : M (option ref) :=
  fragments <-- getFragments cursor ;;
  if negb (match_ fragments) then ret None
  else next cursor.

Definition matchesInternalLink (cursor : ref) : M (option ref) :=
  probe <-- node_cursor cursor ;;
  onMatchContinue probe (fun fragments => isFLinkStart fragments) (fun cursor =>
    moved <-- nextSibling cursor ;;
    if negb moved then ret None
    else onMatchContinue cursor (fun fragments => isInternalLinkWithAlias fragments) (fun cursor =>
      moved <-- nextSibling cursor ;;
      if negb moved then ret None
      else onMatchContinue cursor (fun fragments => isInternalLinksPipe fragments) (fun cursor =>
        moved <-- nextSibling cursor ;;
        if negb moved then ret None
        else onMatchContinue cursor (fun fragments => isInternalLinksAlias fragments) (fun cursor =>
          moved <-- nextSibling cursor ;;
          if negb moved then ret None
          else onMatchContinue cursor (fun fragments => isFLinkEnd fragments) (fun cursor =>
            clone <-- node_cursor cursor ;;
            ret (Some clone)))))).

(** ** Decorations *)

(** A property value of a decoration specification other than its
    attribute map. *)
Inductive JsValue :=
| VString (s : jsstring)
| VBoolean (b : bool)
| VNumber (z : Z).

(** The specification of a mark decoration: the optional [attributes]
    object and the other properties it may carry. *)
Record MarkDecorationSpec := {
  attributes : option (gmap jsstring jsstring);
  properties : gmap jsstring JsValue
}.

(** [Decoration.mark(spec)] keeps the specification it is given. *)
Record Decoration := mark { spec : MarkDecorationSpec }.

(** A [RangeSetBuilder] is modelled by the calls of [add] it has
    received, oldest first; [finish] hands them over as the set. *)
Record Range := { rfrom : Z; rto : Z; value : Decoration }.
Definition RangeSetBuilder := list Range.
Definition DecorationSet := list Range.

Definition add (builder : RangeSetBuilder) (from to : Z) (value : Decoration)
  : RangeSetBuilder :=
  builder ++ [{| rfrom := from; rto := to; value := value |}].

Definition finish (builder : RangeSetBuilder) : DecorationSet := builder.

Definition DATA_SLD_TYPE : jsstring := JS.lit "data-sld-type".

(** The loop of [decorate]: the first setting the alias starts with, by
    prefix or by emoji, adds one decoration and ends the function. *)
Fixpoint decorate (builder : RangeSetBuilder) (settings : list PrefixMapping.t)
    (spec : MarkDecorationSpec) (alias : jsstring) (startFrom endTo : Z)
  : RangeSetBuilder :=
  match settings with
  | [] => builder
  | setting :: settings' =>
      if JS.startsWith alias (PrefixMapping.prefix setting)
         || JS.startsWith alias (PrefixMapping.emoji setting)
      then
        let attributes : gmap jsstring jsstring :=
          {[ DATA_SLD_TYPE := PrefixMapping.linkType setting ]} in
        let newspec :=
          {| attributes := Some (attributes ∪ default ∅ (buildDecorations.attributes spec));
             properties := properties spec |} in
        let decoration := mark newspec in
        add builder startFrom endTo decoration
      else decorate builder settings' spec alias startFrom endTo
  end.

(** ** The link walker *)

(** [traverse] of [findWikiLinks].  [fuel] bounds the number of loop
    rounds and recursive calls together; the caller's callback acts on a
    state [S] of its own. *)
Fixpoint traverse {S} (view : EditorView)
    (callback : Z -> Z -> jsstring -> jsstring -> S -> S)
    (fuel : nat) (cursor : ref) (s : S) : M S :=
  match fuel with
  | O => fun _ => None
  | Datatypes.S fuel =>
      matchCursor <-- matchesInternalLink cursor ;;
      s <-- match matchCursor with
            | Some matchCursor =>
                c <-- position cursor ;;
                m <-- position matchCursor ;;
                let from := from (node (level c)) in
                let to := to (node (level m)) in
                let linkText := sliceDoc (state view) from to in
                let '(fname, alias) := parse.parseWikiLink linkText in
                ret (callback from to fname alias s)
            | None => ret s
            end ;;
      down <-- firstChild cursor ;;
      s <-- (if down
             then s <-- traverse view callback fuel cursor s ;;
                  _ <-- parent cursor ;;
                  ret s
             else ret s) ;;
      more <-- nextSibling cursor ;;
      if more then traverse view callback fuel cursor s else ret s
  end.

(** The number of nodes of a tree. *)
Fixpoint size (t : SyntaxNode) : nat :=
  match t with
  | Node _ _ _ ts => Datatypes.S (list_sum (List.map size ts))
  end.

Definition findWikiLinks {S} (view : EditorView) (cursor : ref)
    (callback : Z -> Z -> jsstring -> jsstring -> S -> S) (s : S) : M S :=
  c <-- position cursor ;;
  let nodes := list_sum (List.map size (node (level c) :: after (level c))) in
  traverse view callback nodes cursor s.

Definition empty_spec : MarkDecorationSpec :=
  {| attributes := None; properties := ∅ |}.

Definition buildLinkDecorations (view : EditorView) (settings : list PrefixMapping.t)
  : option DecorationSet :=
  let builder : RangeSetBuilder := [] in
  let tree := tree (state view) in
  let run :=
    cursor <-- tree_cursor tree ;;
    findWikiLinks view cursor
      (fun startFrom endTo fname alias builder =>
         decorate builder settings empty_spec alias startFrom endTo)
      builder in
  match run [] with
  | Some (builder, _) => Some (finish builder)
  | None => None
  end.

End buildDecorations.

(* ===================================================================== *)
(** * lib/cm/CMLinkDecoratorPlugin.ts *)
(* ===================================================================== *)

Module CMLinkDecoratorPlugin.

Import Editor.

(** The plugin instance: its one field. *)
Record t := { decorations : buildDecorations.DecorationSet }.

Definition constructor (view : EditorView) : option t :=
  let settings := facet (state view) in
  match buildDecorations.buildLinkDecorations view settings with
  | Some set => Some {| decorations := set |}
  | None => None
  end.

(** [update]: the instance after the call.  [!==] on the two facet values
    compares the identities of the arrays. *)
Definition update (this : t) (update : ViewUpdate) : option t :=
  if docChanged update || viewportChanged update
     || negb (Nat.eqb (settings_ref (startState update))
                      (settings_ref (update_state update)))
  then
    let settings := facet (update_state update) in
    match buildDecorations.buildLinkDecorations (view update) settings with
    | Some set => Some {| decorations := set |}
    | None => None
    end
  else Some this.

End CMLinkDecoratorPlugin.

(* ===================================================================== *)
(** * lib/cm/CMLinkAliasReplacementPlugin.ts *)
(* ===================================================================== *)

Module CMLinkAliasReplacementPlugin.

Import Editor.

Module Link.
Record t := { from : Z; to : Z; text : jsstring }.
End Link.

Module AliasInfo.
Record t := { alias : jsstring; from : Z; prefixLength : Z }.
End AliasInfo.

(** What the methods leave behind is the queue of [setTimeout] callbacks;
    each callback is one [view.dispatch] and is kept as the view and the
    specification it dispatches.  A method returns the callbacks it has
    queued, oldest first. *)
Record Timeout := { timeout_view : EditorView; timeout_spec : TransactionSpec }.

Definition OPEN : jsstring := JS.lit "[[".
Definition CLOSE : jsstring := JS.lit "]]".
Definition INPUT : jsstring := JS.lit "input".

Definition resolveEmoji (update : ViewUpdate) (alias : jsstring) : option jsstring :=
  let mappings := facet (update_state update) in
  let mapping := JS.find (fun m => JS.startsWith alias (PrefixMapping.prefix m)) mappings in
  match mapping with
  | Some m => Some (PrefixMapping.emoji m)
  | None => None
  end.

Definition extractAlias (update : ViewUpdate) (linkText : jsstring) (linkFrom : Z)
  : option AliasInfo.t :=
  let pipeIndex := JS.indexOf linkText (JS.lit "|") 0 in
  if pipeIndex =? -1 then None else
  let aliasStart := pipeIndex + 1 in
  let alias := JS.slice linkText aliasStart (-2) in
  match alias with
  | [] => None
  | _ :: _ =>
      let mappings := facet (update_state update) in
      let mapping :=
        JS.find (fun m => JS.startsWith alias (PrefixMapping.prefix m)) mappings in
      match mapping with
      | None => None
      | Some mapping =>
          Some {| AliasInfo.alias := alias;
                  AliasInfo.from := linkFrom + aliasStart;
                  AliasInfo.prefixLength := JS.length (PrefixMapping.prefix mapping) |}
      end
  end.

Definition findEnclosingWikilink (doc : jsstring) (pos : Z) : option Link.t :=
  let open := JS.lastIndexOf doc OPEN pos in
  if open =? -1 then None else
  let close := JS.indexOf doc CLOSE open in
  if close =? -1 then None else
  let to := close + 2 in
  if (pos <? open) || (pos >? to) then None else
  Some {| Link.from := open; Link.to := to; Link.text := JS.slice doc open to |}.

Definition extractCompletedWikilink (doc : jsstring) (cursorPos : Z) : option Link.t :=
  let open := JS.lastIndexOf doc OPEN (cursorPos - 1) in
  if open =? -1 then None else
  let text := JS.slice doc open cursorPos in
  if negb (JS.endsWith text CLOSE) then None else
  if negb (JS.indexOf text OPEN 2 =? -1) then None else
  Some {| Link.from := open; Link.to := cursorPos; Link.text := text |}.

Definition processAlias (update : ViewUpdate) (link : Link.t) : list Timeout :=
  match extractAlias update (Link.text link) (Link.from link) with
  | None => []
  | Some aliasInfo =>
      match resolveEmoji update (AliasInfo.alias aliasInfo) with
      | None | Some [] => []
      | Some replacement =>
          if JS.eqb (AliasInfo.alias aliasInfo) replacement then []
          else
            let view := view update in
            [ {| timeout_view := view;
                 timeout_spec :=
                   {| changes_from := AliasInfo.from aliasInfo;
                      changes_to := AliasInfo.from aliasInfo
                                    + AliasInfo.prefixLength aliasInfo;
                      changes_insert := replacement;
                      spec_selection := selection (update_state update);
                      spec_userEvent := INPUT |} |} ]
      end
  end.

Definition handleCaretExit (update : ViewUpdate) : list Timeout :=
  let prevSel := main (selection (startState update)) in
  let nextSel := main (selection (update_state update)) in
  if negb (empty prevSel) || negb (empty nextSel) then [] else
  let prevPos := range_from prevSel in
  let nextPos := range_from nextSel in
  if prevPos =? nextPos then [] else
  let doc := doc (update_state update) in
  match findEnclosingWikilink doc prevPos with
  | None => []
  | Some link =>
      if (nextPos >=? Link.from link) && (nextPos <=? Link.to link) then []
      else processAlias update link
  end.

Definition handleLinkCompletion (update : ViewUpdate) : list Timeout :=
  let state := update_state update in
  let sel := main (selection state) in
  if negb (empty sel) then [] else
  let cursorPos := range_from sel in
  let tail := sliceString (doc state) (Z.max 0 (cursorPos - 2)) cursorPos in
  if negb (JS.eqb tail CLOSE) then [] else
  match extractCompletedWikilink (doc state) cursorPos with
  | None => []
  | Some link => processAlias update link
  end.

Definition update (update : ViewUpdate) : list Timeout :=
  (if docChanged update
   then flat_map
          (fun tr => if negb (isUserEvent tr INPUT) then []
                     else handleLinkCompletion update)
          (transactions update)
   else [])
  ++ (if selectionSet update then handleCaretExit update else []).

End CMLinkAliasReplacementPlugin.

(* ===================================================================== *)
(** * Sanity checks of the embedding *)
(* ===================================================================== *)

Example parse_AB : parse.parseWikiLink (JS.lit "[[A|B]]") = (JS.lit "A", JS.lit "B").
Proof. vm_compute. reflexivity. Qed.

Example parse_nested : parse.parseWikiLink (JS.lit "[[A|B[[C]]]]") = ([], []).
Proof. vm_compute. reflexivity. Qed.

Example parse_open : parse.parseWikiLink (JS.lit "[[A|B[[C]]") = (JS.lit "A", JS.lit "B[[C").
Proof. vm_compute. reflexivity. Qed.

Example slice_neg : JS.slice (JS.lit "[[T|@Foo]]") 4 (-2) = JS.lit "@Foo".
Proof. vm_compute. reflexivity. Qed.

Example lastIndexOf_ex : JS.lastIndexOf (JS.lit "a[[b[[c") (JS.lit "[[") 3 = 1.
Proof. vm_compute. reflexivity. Qed.

Example indexOf_ex : JS.indexOf (JS.lit "a[[b[[c") (JS.lit "[[") 2 = 4.
Proof. vm_compute. reflexivity. Qed.

(* ===================================================================== *)
(** * Facts about the string operations *)
(* ===================================================================== *)

Section StringFacts.

Implicit Types s pat a b : jsstring.

Lemma eqb_eq a b : JS.eqb a b = true <-> a = b.
Proof.
  revert b. induction a as [|x a IH]; intros [|y b]; simpl; try (split; congruence).
  rewrite andb_true_iff, N.eqb_eq, IH. split.
  - intros [-> ->]. reflexivity.
  - intros [= -> ->]. split; reflexivity.
Qed.

Lemma eqb_refl a : JS.eqb a a = true.
Proof. apply eqb_eq. reflexivity. Qed.

Lemma eqb_neq a b : JS.eqb a b = false <-> a <> b.
Proof.
  rewrite <- eqb_eq. destruct (JS.eqb a b); split; congruence.
Qed.

Lemma startsWith_nil s : JS.startsWith s [] = true.
Proof. destruct s; reflexivity. Qed.

Lemma startsWith_app s pat : JS.startsWith (pat ++ s) pat = true.
Proof.
  induction pat as [|p pat IH]; simpl.
  - apply startsWith_nil.
  - rewrite N.eqb_refl. exact IH.
Qed.

Lemma startsWith_spec s pat :
  JS.startsWith s pat = true <-> exists rest, s = pat ++ rest.
Proof.
  split.
  - revert s. induction pat as [|p pat IH]; intros s H.
    + exists s. reflexivity.
    + destruct s as [|c s]; simpl in H; [discriminate|].
      apply andb_true_iff in H as [Hc Hs]. apply N.eqb_eq in Hc as ->.
      destruct (IH _ Hs) as [rest ->]. exists rest. reflexivity.
  - intros [rest ->]. apply startsWith_app.
Qed.

Lemma indexOf_from_ge s pat start k :
  JS.indexOf_from s pat start = Some k -> (start <= k)%nat.
Proof.
  revert start. induction s as [|c s IH]; intros start; cbn [JS.indexOf_from].
  - destruct (JS.startsWith [] pat); intros [= <-]. lia.
  - destruct (JS.startsWith (c :: s) pat).
    + intros [= <-]. lia.
    + intros H. apply IH in H. lia.
Qed.

Lemma lastIndexOf_down_le s pat start k :
  JS.lastIndexOf_down s pat start = Some k -> (k <= start)%nat.
Proof.
  induction start as [|n IH]; cbn [JS.lastIndexOf_down].
  - destruct (JS.startsWith _ pat); intros [= <-]. lia.
  - destruct (JS.startsWith _ pat).
    + intros [= <-]. lia.
    + intros H. apply IH in H. lia.
Qed.

Lemma clamp_range pos len : 0 <= len -> 0 <= JS.clamp pos 0 len <= len.
Proof. unfold JS.clamp. lia. Qed.

Lemma length_nonneg s : 0 <= JS.length s.
Proof. unfold JS.length. lia. Qed.

(** A found index is not before the position the search starts at. *)
Lemma indexOf_ge s pat pos :
  JS.indexOf s pat pos <> -1 ->
  JS.clamp pos 0 (JS.length s) <= JS.indexOf s pat pos.
Proof.
  unfold JS.indexOf. pose proof (clamp_range pos _ (length_nonneg s)) as Hc.
  destruct (JS.indexOf_from _ pat _) as [k|] eqn:E; [|congruence].
  intros _. apply indexOf_from_ge in E. lia.
Qed.

(** A found last index lies between 0 and the position the search starts at. *)
Lemma lastIndexOf_range s pat pos :
  JS.lastIndexOf s pat pos <> -1 ->
  0 <= JS.lastIndexOf s pat pos <= JS.clamp pos 0 (JS.length s).
Proof.
  unfold JS.lastIndexOf. pose proof (clamp_range pos _ (length_nonneg s)) as Hc.
  destruct (JS.lastIndexOf_down s pat _) as [k|] eqn:E; [|congruence].
  intros _. apply lastIndexOf_down_le in E. lia.
Qed.

Lemma indexOf_from_found s pat start k :
  JS.indexOf_from s pat start = Some k ->
  JS.startsWith (skipn (k - start) s) pat = true.
Proof.
  revert start. induction s as [|c s IH]; intros start; cbn [JS.indexOf_from].
  - destruct (JS.startsWith [] pat) eqn:E; intros [= <-].
    rewrite Nat.sub_diag. exact E.
  - destruct (JS.startsWith (c :: s) pat) eqn:E.
    + intros [= <-]. rewrite Nat.sub_diag. exact E.
    + intros H. pose proof (indexOf_from_ge _ _ _ _ H) as Hge.
      apply IH in H. replace (k - start)%nat with (S (k - S start)) by lia.
      exact H.
Qed.

(** At a found index the pattern stands in the string. *)
Lemma indexOf_found s pat pos :
  JS.indexOf s pat pos <> -1 ->
  JS.startsWith (skipn (Z.to_nat (JS.indexOf s pat pos)) s) pat = true.
Proof.
  unfold JS.indexOf.
  destruct (JS.indexOf_from _ pat _) as [k|] eqn:E; [|congruence].
  intros _. pose proof (indexOf_from_ge _ _ _ _ E) as Hge.
  apply indexOf_from_found in E. rewrite skipn_skipn in E.
  rewrite Nat2Z.id.
  replace (k - Z.to_nat (JS.clamp pos 0 (JS.length s))
           + Z.to_nat (JS.clamp pos 0 (JS.length s)))%nat with k in E by lia.
  exact E.
Qed.

Lemma lastIndexOf_down_found s pat start k :
  JS.lastIndexOf_down s pat start = Some k ->
  JS.startsWith (skipn k s) pat = true.
Proof.
  induction start as [|n IH]; cbn [JS.lastIndexOf_down].
  - destruct (JS.startsWith (skipn 0 s) pat) eqn:E; intros [= <-]. exact E.
  - destruct (JS.startsWith (skipn (S n) s) pat) eqn:E.
    + intros [= <-]. exact E.
    + exact IH.
Qed.

Lemma lastIndexOf_found s pat pos :
  JS.lastIndexOf s pat pos <> -1 ->
  JS.startsWith (skipn (Z.to_nat (JS.lastIndexOf s pat pos)) s) pat = true.
Proof.
  unfold JS.lastIndexOf.
  destruct (JS.lastIndexOf_down s pat _) as [k|] eqn:E; [|congruence].
  intros _. rewrite Nat2Z.id. apply lastIndexOf_down_found in E. exact E.
Qed.

Lemma units_startsWith s pat k :
  0 <= k ->
  JS.startsWith (skipn (Z.to_nat k) s) pat = true ->
  JS.units s k (k + JS.length pat) = pat.
Proof.
  intros Hk H. apply startsWith_spec in H as [rest Hrest].
  unfold JS.units, JS.length. rewrite Hrest.
  replace (Z.to_nat (k + Z.of_nat (List.length pat) - k)) with (List.length pat) by lia.
  rewrite firstn_app, Nat.sub_diag, firstn_all. simpl. apply app_nil_r.
Qed.

End StringFacts.

(* ===================================================================== *)
(** * The alias replacement plugin *)
(* ===================================================================== *)

Section AliasReplacement.

Import Editor CMLinkAliasReplacementPlugin.

(** The link [findEnclosingWikilink] answers with starts at or before the
    position, ends at or after it, and spans at least two code units. *)
Lemma findEnclosingWikilink_bounds doc pos link :
  findEnclosingWikilink doc pos = Some link ->
  0 <= Link.from link /\ Link.from link + 2 <= Link.to link
  /\ Link.from link <= pos <= Link.to link.
Proof.
  unfold findEnclosingWikilink.
  destruct (Z.eqb_spec (JS.lastIndexOf doc OPEN pos) (-1)) as [|Hopen]; [discriminate|].
  destruct (Z.eqb_spec (JS.indexOf doc CLOSE (JS.lastIndexOf doc OPEN pos)) (-1))
    as [|Hclose]; [discriminate|].
  destruct (orb _ _) eqn:Hin; [discriminate|].
  intros [= <-]. simpl.
  apply orb_false_iff in Hin as [Hlo Hhi].
  apply Z.ltb_ge in Hlo. rewrite Z.gtb_ltb in Hhi. apply Z.ltb_ge in Hhi.
  pose proof (lastIndexOf_range _ _ _ Hopen) as Ho.
  pose proof (indexOf_ge _ _ _ Hclose) as Hc.
  pose proof (clamp_range pos _ (length_nonneg doc)) as Hp.
  unfold JS.clamp in *. lia.
Qed.

(** The link [findEnclosingWikilink] answers with starts with ["[["] and
    ends with the first ["]]"] after that. *)
Lemma findEnclosingWikilink_delimited doc pos link :
  findEnclosingWikilink doc pos = Some link ->
  JS.units doc (Link.from link) (Link.from link + 2) = OPEN
  /\ JS.units doc (Link.to link - 2) (Link.to link) = CLOSE.
Proof.
  unfold findEnclosingWikilink.
  destruct (Z.eqb_spec (JS.lastIndexOf doc OPEN pos) (-1)) as [|Hopen]; [discriminate|].
  destruct (Z.eqb_spec (JS.indexOf doc CLOSE (JS.lastIndexOf doc OPEN pos)) (-1))
    as [|Hclose]; [discriminate|].
  destruct (orb _ _); [discriminate|].
  intros [= <-]. simpl.
  pose proof (lastIndexOf_range _ _ _ Hopen) as Ho.
  pose proof (indexOf_ge _ _ _ Hclose) as Hc.
  pose proof (clamp_range (JS.lastIndexOf doc OPEN pos) _ (length_nonneg doc)) as Hp.
  split.
  - apply (units_startsWith doc OPEN); [lia|]. apply lastIndexOf_found, Hopen.
  - replace (JS.indexOf doc CLOSE (JS.lastIndexOf doc OPEN pos) + 2 - 2)
      with (JS.indexOf doc CLOSE (JS.lastIndexOf doc OPEN pos)) by lia.
    apply (units_startsWith doc CLOSE); [lia|]. apply indexOf_found, Hclose.
Qed.

(** The condition of the idempotence guard: the alias of the link is found,
    a replacement is resolved for it, and the two are the same string. *)
Definition already_replaced (u : ViewUpdate) (link : Link.t) : Prop :=
  exists info replacement,
    extractAlias u (Link.text link) (Link.from link) = Some info
    /\ resolveEmoji u (AliasInfo.alias info) = Some replacement
    /\ AliasInfo.alias info = replacement.

(** C6.  Idempotence guard: when the alias extracted from a link already
    equals the replacement resolved for it, alias processing queues no
    mutation; so neither trigger queues one, be the link the one just
    completed at the caret or the one the caret has left. *)
Theorem alias_equal_to_replacement_queues_nothing :
  forall (u : ViewUpdate) (link : Link.t),
    already_replaced u link ->
    processAlias u link = []
    /\ (extractCompletedWikilink (doc (update_state u))
          (range_from (main (selection (update_state u)))) = Some link ->
        handleLinkCompletion u = [])
    /\ (findEnclosingWikilink (doc (update_state u))
          (range_from (main (selection (startState u)))) = Some link ->
        handleCaretExit u = []).
Proof.
  intros u link (info & replacement & Hinfo & Hres & Heq).
  assert (Hp : processAlias u link = []).
  { unfold processAlias. rewrite Hinfo, Hres.
    destruct replacement; [reflexivity|].
    rewrite Heq, eqb_refl. reflexivity. }
  split; [exact Hp|]. split.
  - intros Hlink. unfold handleLinkCompletion. rewrite Hlink, Hp.
    repeat match goal with |- context [if ?c then _ else _] => destruct c end;
      reflexivity.
  - intros Hlink. unfold handleCaretExit. rewrite Hlink, Hp.
    repeat match goal with |- context [if ?c then _ else _] => destruct c end;
      reflexivity.
Qed.

(** C10.  The bounds test of the caret-exit detector is inclusive at both
    ends: with collapsed carets before and after, a previous caret inside
    a link and the new caret on the link's start offset or on its end
    offset, no alias processing takes place.  The start offset is where
    the link's ["[["] begins and the end offset is the one right after
    its ["]]"]. *)
Theorem caret_on_link_boundary_counts_as_inside :
  forall (u : ViewUpdate) (link : Link.t),
    empty (main (selection (startState u))) = true ->
    empty (main (selection (update_state u))) = true ->
    findEnclosingWikilink (doc (update_state u))
      (range_from (main (selection (startState u)))) = Some link ->
    range_from (main (selection (update_state u))) = Link.from link
    \/ range_from (main (selection (update_state u))) = Link.to link ->
    handleCaretExit u = []
    /\ JS.units (doc (update_state u)) (Link.from link) (Link.from link + 2) = OPEN
    /\ JS.units (doc (update_state u)) (Link.to link - 2) (Link.to link) = CLOSE.
Proof.
  intros u link Hprev Hnext Hlink Hpos.
  split; [|exact (findEnclosingWikilink_delimited _ _ _ Hlink)].
  unfold handleCaretExit. rewrite Hprev, Hnext, Hlink. simpl.
  destruct (_ =? _); [reflexivity|].
  apply findEnclosingWikilink_bounds in Hlink as (_ & Hspan & _).
  replace (_ && _) with true; [reflexivity|].
  symmetry. apply andb_true_iff. rewrite Z.geb_leb, !Z.leb_le. lia.
Qed.

End AliasReplacement.

(* ===================================================================== *)
(** * The annotation builder *)
(* ===================================================================== *)

Section AnnotationBuilder.

Import Editor buildDecorations.

(** The test [decorate] applies to each rule. *)
Definition rule_matches (alias : jsstring) (rule : PrefixMapping.t) : bool :=
  JS.startsWith alias (PrefixMapping.prefix rule)
  || JS.startsWith alias (PrefixMapping.emoji rule).

(** The template's attributes overlaid with the classification entry. *)
Definition overlay (spec : MarkDecorationSpec) (rule : PrefixMapping.t)
  : gmap jsstring jsstring :=
  {[ DATA_SLD_TYPE := PrefixMapping.linkType rule ]} ∪ default ∅ (attributes spec).

(** The annotation built from a template for a rule and a span. *)
Definition annotation (spec : MarkDecorationSpec) (rule : PrefixMapping.t)
    (startFrom endTo : Z) : Range :=
  {| rfrom := startFrom;
     rto := endTo;
     value := mark {| attributes := Some (overlay spec rule);
                      properties := properties spec |} |}.

Lemma decorate_find builder settings spec alias startFrom endTo :
  decorate builder settings spec alias startFrom endTo =
  match List.find (rule_matches alias) settings with
  | Some rule => builder ++ [annotation spec rule startFrom endTo]
  | None => builder
  end.
Proof.
  induction settings as [|setting settings IH]; simpl; [reflexivity|].
  unfold rule_matches at 1.
  destruct (_ || _); [reflexivity | exact IH].
Qed.

Lemma find_first {A} (p : A -> bool) (pre : list A) (x : A) (post : list A) :
  Forall (fun y => p y = false) pre -> p x = true ->
  List.find p (pre ++ x :: post) = Some x.
Proof.
  induction 1 as [|y pre Hy _ IH]; intros Hx; simpl.
  - rewrite Hx. reflexivity.
  - rewrite Hy. apply IH, Hx.
Qed.

Lemma find_none {A} (p : A -> bool) (l : list A) :
  Forall (fun y => p y = false) l -> List.find p l = None.
Proof.
  induction 1 as [|y l Hy _ IH]; simpl; [reflexivity|].
  rewrite Hy. exact IH.
Qed.

(** C2.  The annotation builder uses the first rule, in rule set order,
    whose prefix or emoji the alias starts with: it adds exactly one
    annotation for the span, built from that rule, whatever rules follow
    it; when no rule matches it adds nothing; and a rule with an empty
    prefix or an empty emoji matches every alias. *)
Theorem decorate_uses_first_matching_rule :
  forall (builder : RangeSetBuilder) (spec : MarkDecorationSpec)
         (alias : jsstring) (startFrom endTo : Z),
    (forall (pre : list PrefixMapping.t) (rule : PrefixMapping.t)
            (post : list PrefixMapping.t),
        Forall (fun r => rule_matches alias r = false) pre ->
        rule_matches alias rule = true ->
        decorate builder (pre ++ rule :: post) spec alias startFrom endTo
        = builder ++ [annotation spec rule startFrom endTo])
    /\ (forall settings : list PrefixMapping.t,
          Forall (fun r => rule_matches alias r = false) settings ->
          decorate builder settings spec alias startFrom endTo = builder)
    /\ (forall rule : PrefixMapping.t,
          PrefixMapping.prefix rule = [] \/ PrefixMapping.emoji rule = [] ->
          rule_matches alias rule = true).
Proof.
  intros builder spec alias startFrom endTo. repeat split.
  - intros pre rule post Hpre Hrule.
    rewrite decorate_find, (find_first _ _ _ _ Hpre Hrule). reflexivity.
  - intros settings Hnone.
    rewrite decorate_find, (find_none _ _ Hnone). reflexivity.
  - intros rule [H|H]; unfold rule_matches; rewrite H, startsWith_nil.
    + reflexivity.
    + apply orb_true_r.
Qed.

(** C8.  The annotation built for a matching rule carries the template's
    attributes overlaid with the classification entry: the value under
    ["data-sld-type"] is the rule's [linkType], also when the template
    has an entry of that name, and every other attribute of the template
    is kept; the other properties of the template are kept as well. *)
Theorem decoration_attributes_overlay_classification :
  forall (builder : RangeSetBuilder) (settings : list PrefixMapping.t)
         (spec : MarkDecorationSpec) (alias : jsstring) (startFrom endTo : Z)
         (rule : PrefixMapping.t),
    List.find (rule_matches alias) settings = Some rule ->
    exists attrs : gmap jsstring jsstring,
      decorate builder settings spec alias startFrom endTo
      = builder ++ [ {| rfrom := startFrom;
                        rto := endTo;
                        value := mark {| attributes := Some attrs;
                                         properties := properties spec |} |} ]
      /\ attrs = {[ DATA_SLD_TYPE := PrefixMapping.linkType rule ]}
                 ∪ default ∅ (attributes spec)
      /\ attrs !! DATA_SLD_TYPE = Some (PrefixMapping.linkType rule)
      /\ (forall key : jsstring,
            key <> DATA_SLD_TYPE ->
            attrs !! key = default ∅ (attributes spec) !! key).
Proof.
  intros builder settings spec alias startFrom endTo rule Hfind.
  exists (overlay spec rule). repeat split.
  - rewrite decorate_find, Hfind. reflexivity.
  - unfold overlay. apply lookup_union_Some_l, lookup_singleton_eq.
  - intros key Hkey. unfold overlay.
    apply lookup_union_r, lookup_singleton_ne. congruence.
Qed.

End AnnotationBuilder.

(* ===================================================================== *)
(** * The decorator plugin *)
(* ===================================================================== *)

Section DecoratorPlugin.

Import Editor.

(** C9.  An update that changed neither the document nor the viewport and
    left the identity of the resolved rule set as it was does not rebuild:
    the plugin instance, and with it the decoration set it exposes, is the
    one from before the update. *)
Theorem update_without_change_keeps_decorations :
  forall (this : CMLinkDecoratorPlugin.t) (u : ViewUpdate),
    docChanged u = false ->
    viewportChanged u = false ->
    settings_ref (startState u) = settings_ref (update_state u) ->
    CMLinkDecoratorPlugin.update this u = Some this.
Proof.
  intros this u Hdoc Hview Href. unfold CMLinkDecoratorPlugin.update.
  rewrite Hdoc, Hview, Href, Nat.eqb_refl. reflexivity.
Qed.

End DecoratorPlugin.

(* ===================================================================== *)
(** * The rule set merge *)
(* ===================================================================== *)

Section RuleSetMerge.

Import SettingsFacet.

Abbreviation prefix := PrefixMapping.prefix.

(** The merge in the words of its description: the keys of a sequence in
    the order of their first occurrence ... *)
Fixpoint first_occurrences (keys : list jsstring) : list jsstring :=
  match keys with
  | [] => []
  | k :: keys' =>
      k :: List.filter (fun k' => negb (JS.eqb k' k)) (first_occurrences keys')
  end.

(** ... and, for a key, the last rule written under it. *)
Definition last_written (k : jsstring) (rules : list PrefixMapping.t)
  : option PrefixMapping.t :=
  List.find (fun m => JS.eqb (prefix m) k) (rev rules).

(** The [Map] after the rules of all contributors were set in turn. *)
Definition set_all (rules : list PrefixMapping.t) (byPrefix : Map PrefixMapping.t)
  : Map PrefixMapping.t :=
  fold_left (fun byPrefix mapping => Map_set byPrefix (prefix mapping) mapping)
            rules byPrefix.

Lemma combine_flat values :
  combine values = Map_values (set_all (concat values) []).
Proof.
  unfold combine, set_all. f_equal. generalize (@nil (jsstring * PrefixMapping.t)).
  induction values as [|mappings values IH]; intros byPrefix; simpl; [reflexivity|].
  rewrite fold_left_app. apply IH.
Qed.

Lemma set_all_snoc rules mapping byPrefix :
  set_all (rules ++ [mapping]) byPrefix
  = Map_set (set_all rules byPrefix) (prefix mapping) mapping.
Proof. unfold set_all. rewrite fold_left_app. reflexivity. Qed.

Definition has_key (k : jsstring) (keys : list jsstring) : bool :=
  existsb (fun k' => JS.eqb k' k) keys.

Lemma has_key_In k keys : has_key k keys = true <-> In k keys.
Proof.
  unfold has_key. rewrite existsb_exists. split.
  - intros (k' & Hin & Heq). apply eqb_eq in Heq as ->. exact Hin.
  - intros Hin. exists k. split; [exact Hin | apply eqb_refl].
Qed.

(** [set] keeps the keys where they are and appends a key that is new. *)
Lemma Map_set_keys {V} (m : Map V) k v :
  List.map fst (Map_set m k v)
  = List.map fst m ++ (if has_key k (List.map fst m) then [] else [k]).
Proof.
  induction m as [|[k' v'] m IH]; simpl; [reflexivity|].
  destruct (JS.eqb k' k) eqn:E; simpl.
  - rewrite app_nil_r. reflexivity.
  - rewrite IH. reflexivity.
Qed.

Lemma has_key_filter k k0 keys :
  JS.eqb k0 k = false ->
  has_key k (List.filter (fun k' => negb (JS.eqb k' k0)) keys) = has_key k keys.
Proof.
  intros Hne. induction keys as [|k1 keys IH]; simpl; [reflexivity|].
  destruct (JS.eqb k1 k0) eqn:E; simpl.
  - apply eqb_eq in E as ->. rewrite Hne. exact IH.
  - rewrite IH. reflexivity.
Qed.

Lemma first_occurrences_snoc keys k :
  first_occurrences (keys ++ [k])
  = first_occurrences keys
    ++ (if has_key k (first_occurrences keys) then [] else [k]).
Proof.
  induction keys as [|k0 keys IH]; simpl; [reflexivity|].
  rewrite IH, List.filter_app. f_equal. f_equal.
  destruct (JS.eqb k0 k) eqn:E; simpl.
  - apply eqb_eq in E as ->.
    destruct (has_key k _); simpl; [reflexivity|]. rewrite eqb_refl. reflexivity.
  - rewrite (has_key_filter _ _ _ E).
    destruct (has_key k _); simpl; [reflexivity|].
    replace (JS.eqb k k0) with false; [reflexivity|].
    symmetry. apply eqb_neq. apply eqb_neq in E. congruence.
Qed.

Lemma first_occurrences_In k keys : In k (first_occurrences keys) <-> In k keys.
Proof.
  induction keys as [|k0 keys IH]; simpl; [reflexivity|].
  rewrite filter_In, IH, negb_true_iff, eqb_neq. split.
  - intros [H|[H _]]; auto.
  - intros [H|H]; auto.
    destruct (JS.eqb k0 k) eqn:E.
    + left. apply eqb_eq, E.
    + right. split; [exact H|]. apply eqb_neq in E. congruence.
Qed.

Lemma first_occurrences_NoDup keys : List.NoDup (first_occurrences keys).
Proof.
  induction keys as [|k0 keys IH]; simpl; constructor.
  - rewrite filter_In, negb_true_iff, eqb_neq. intros [_ H]. congruence.
  - apply List.NoDup_filter, IH.
Qed.

(** The invariant of the map while the rules are set one after the other:
    every entry stands under the prefix of its rule, the keys are the
    prefixes met so far in the order they were first met, and the rule of
    an entry is the last one written under its key. *)
Record merged (rules : list PrefixMapping.t) (m : Map PrefixMapping.t) : Prop := {
  merged_keyed : Forall (fun e => prefix (snd e) = fst e) m;
  merged_keys : List.map fst m = first_occurrences (List.map prefix rules);
  merged_last : forall k v, In (k, v) m -> last_written k rules = Some v
}.

Lemma Map_set_In {V} (m : Map V) k v k' v' :
  List.NoDup (List.map fst m) ->
  In (k', v') (Map_set m k v) ->
  (k' = k /\ v' = v) \/ (k' <> k /\ In (k', v') m).
Proof.
  induction m as [|[k0 v0] m IH]; simpl; intros Hnd Hin.
  - destruct Hin as [[= <- <-]|[]]. left. split; reflexivity.
  - apply List.NoDup_cons_iff in Hnd as [Hfresh Hnd].
    destruct (JS.eqb k0 k) eqn:E.
    + apply eqb_eq in E as ->.
      destruct Hin as [[= <- <-]|Hin]; [left; split; reflexivity|].
      right. split; [|right; exact Hin].
      intros ->. apply Hfresh. apply (in_map fst) in Hin. exact Hin.
    + apply eqb_neq in E.
      destruct Hin as [[= <- <-]|Hin]; [right; split; [exact E | left; reflexivity]|].
      destruct (IH Hnd Hin) as [H|[H1 H2]]; [left; exact H | right; split; auto].
Qed.

Lemma Map_set_keyed m mapping :
  Forall (fun e : jsstring * PrefixMapping.t => prefix (snd e) = fst e) m ->
  Forall (fun e : jsstring * PrefixMapping.t => prefix (snd e) = fst e)
         (Map_set m (prefix mapping) mapping).
Proof.
  induction 1 as [|[k0 v0] m Hk Hm IH]; simpl.
  - constructor; [reflexivity | constructor].
  - destruct (JS.eqb k0 (prefix mapping)) eqn:E.
    + apply eqb_eq in E. constructor; [simpl; congruence | assumption].
    + constructor; assumption.
Qed.

Lemma merged_set_all rules : merged rules (set_all rules []).
Proof.
  induction rules as [|mapping rules IH] using rev_ind.
  - split; [constructor | reflexivity | intros k v []].
  - destruct IH as [Hkeyed Hkeys Hlast]. rewrite set_all_snoc. split.
    + apply Map_set_keyed, Hkeyed.
    + rewrite Map_set_keys, Hkeys, List.map_app. simpl.
      rewrite first_occurrences_snoc. reflexivity.
    + intros k v Hin. apply Map_set_In in Hin.
      2:{ rewrite Hkeys. apply first_occurrences_NoDup. }
      unfold last_written. rewrite rev_app_distr. simpl.
      destruct Hin as [[-> ->]|[Hne Hin]].
      * rewrite eqb_refl. reflexivity.
      * replace (JS.eqb (prefix mapping) k) with false.
        -- apply Hlast, Hin.
        -- symmetry. apply eqb_neq. congruence.
Qed.

Lemma keyed_values (m : Map PrefixMapping.t) :
  Forall (fun e => prefix (snd e) = fst e) m ->
  List.map prefix (Map_values m) = List.map fst m.
Proof.
  unfold Map_values. induction 1 as [|e m He _ IH]; simpl; [reflexivity|].
  rewrite He, IH. reflexivity.
Qed.

(** C3.  The merge writes the rules of all contributors, in contribution
    order, under their prefix, the last write winning: the prefixes of the
    output are those of the contributions in the order of their first
    occurrence, and each rule of the output is the last one contributed
    under its prefix.  So two contributors of one rule each under the same
    prefix merge into the second contributor's rule alone. *)
Theorem combine_last_write_wins_first_insertion_order :
  forall values : list (list PrefixMapping.t),
    List.map prefix (combine values)
    = first_occurrences (List.map prefix (concat values))
    /\ (forall m : PrefixMapping.t,
          In m (combine values) ->
          last_written (prefix m) (concat values) = Some m)
    /\ (forall A B : PrefixMapping.t,
          prefix A = prefix B ->
          combine [[A]; [B]] = [B] /\ List.length (combine [[A]; [B]]) = 1%nat).
Proof.
  intros values. rewrite combine_flat.
  destruct (merged_set_all (concat values)) as [Hkeyed Hkeys Hlast].
  split; [|split].
  - rewrite keyed_values by exact Hkeyed. exact Hkeys.
  - intros m Hin. unfold Map_values in Hin. apply in_map_iff in Hin as ([k v] & <- & Hin).
    rewrite List.Forall_forall in Hkeyed.
    pose proof (Hkeyed _ Hin) as Hk. simpl in Hk |- *. rewrite Hk.
    apply Hlast, Hin.
  - intros A B Heq. unfold combine. simpl. rewrite Heq, eqb_refl. split; reflexivity.
Qed.

(** C7.  Whatever the contributed arrays are, no two rules of the merged
    rule set have the same prefix. *)
Theorem combine_one_rule_per_prefix :
  forall values : list (list PrefixMapping.t),
    List.NoDup (List.map prefix (combine values)).
Proof.
  intros values. rewrite combine_flat.
  destruct (merged_set_all (concat values)) as [Hkeyed Hkeys _].
  rewrite keyed_values by exact Hkeyed. rewrite Hkeys.
  apply first_occurrences_NoDup.
Qed.

End RuleSetMerge.

(* ===================================================================== *)
(** * The link text parser *)
(* ===================================================================== *)

Section LinkTextParser.

Import parse.

Lemma exec_chr c rest x s :
  exec (Chr c :: rest) (x :: s) = if N.eqb x c then exec rest s else None.
Proof. reflexivity. Qed.

Lemma exec_chr_nil c rest : exec (Chr c :: rest) [] = None.
Proof. reflexivity. Qed.

Lemma exec_star excluded rest s :
  exec (GroupStarNot excluded :: rest) s =
  let stop := option_map (cons []) (exec rest s) in
  match s with
  | x :: s' =>
      if in_class excluded x then
        match exec (GroupStarNot excluded :: rest) s' with
        | Some (g :: gs) => Some ((x :: g) :: gs)
        | _ => stop
        end
      else stop
  | [] => stop
  end.
Proof. destruct s; reflexivity. Qed.

(** What a group has taken lies in its class, and the rest of the pattern
    has matched what follows. *)
Lemma exec_star_sound excluded rest s caps :
  exec (GroupStarNot excluded :: rest) s = Some caps ->
  exists g s2 caps',
    s = g ++ s2 /\ Forall (fun x => in_class excluded x = true) g
    /\ exec rest s2 = Some caps' /\ caps = g :: caps'.
Proof.
  assert (Hstop : forall s caps,
             option_map (cons []) (exec rest s) = Some caps ->
             exists g s2 caps',
               s = g ++ s2 /\ Forall (fun x => in_class excluded x = true) g
               /\ exec rest s2 = Some caps' /\ caps = g :: caps').
  { intros s0 caps0 H. destruct (exec rest s0) as [caps'|] eqn:E; [|discriminate].
    injection H as <-. exists [], s0, caps'. repeat split; [constructor | exact E]. }
  revert caps. induction s as [|x s IH]; intros caps; rewrite exec_star; cbv zeta.
  - apply Hstop.
  - destruct (in_class excluded x) eqn:Hx; [|apply Hstop].
    destruct (exec (GroupStarNot excluded :: rest) s) as [[|g gs]|] eqn:E;
      try apply Hstop.
    intros [= <-]. destruct (IH _ eq_refl) as (g' & s2 & caps' & -> & Hg & Hrest & [= -> ->]).
    exists (x :: g'), s2, caps'. repeat split; [constructor; assumption | exact Hrest].
Qed.

(** A group takes all of a run of its class that ends at the end of the
    input or before a code unit outside the class. *)
Lemma exec_star_complete excluded rest g s2 caps' :
  Forall (fun x => in_class excluded x = true) g ->
  match s2 with [] => True | x :: _ => in_class excluded x = false end ->
  exec rest s2 = Some caps' ->
  exec (GroupStarNot excluded :: rest) (g ++ s2) = Some (g :: caps').
Proof.
  intros Hg Hs2 Hrest. induction Hg as [|x g Hx _ IH]; cbn [app].
  - rewrite exec_star. cbv zeta.
    destruct s2 as [|x s2]; [|rewrite Hs2]; rewrite Hrest; reflexivity.
  - rewrite exec_star. cbv zeta. rewrite Hx, IH. reflexivity.
Qed.

Definition no_unit (c : N) (s : jsstring) : Prop := ~ In c s.

Lemma in_class_no_unit excluded g c :
  Forall (fun x => in_class excluded x = true) g -> In c excluded -> no_unit c g.
Proof.
  intros Hg Hc Hin. rewrite List.Forall_forall in Hg. specialize (Hg _ Hin).
  unfold in_class in Hg. apply negb_true_iff in Hg.
  assert (existsb (N.eqb c) excluded = true); [|congruence].
  apply existsb_exists. exists c. split; [exact Hc | apply N.eqb_refl].
Qed.

Lemma no_unit_in_class excluded g :
  (forall c, In c excluded -> no_unit c g) ->
  Forall (fun x => in_class excluded x = true) g.
Proof.
  intros H. apply List.Forall_forall. intros x Hx. unfold in_class.
  apply negb_true_iff. destruct (existsb _ _) eqn:E; [|reflexivity].
  apply existsb_exists in E as (c & Hc & Heq). apply N.eqb_eq in Heq as <-.
  destruct (H _ Hc Hx).
Qed.

(** The strings [WIKI_LINK_REGEX] matches, with their captures. *)
Lemma match_sound s caps :
  match_ s = Some caps ->
  exists target alias,
    s = [LBRACKET; LBRACKET] ++ target ++ [PIPE] ++ alias ++ [RBRACKET; RBRACKET]
    /\ no_unit PIPE target /\ no_unit RBRACKET target /\ no_unit RBRACKET alias
    /\ caps = [target; alias].
Proof.
  unfold match_, WIKI_LINK_REGEX. intros H.
  destruct s as [|x1 s]; [rewrite exec_chr_nil in H; discriminate|].
  rewrite exec_chr in H.
  destruct (N.eqb_spec x1 LBRACKET) as [->|]; [|discriminate].
  destruct s as [|x2 s]; [rewrite exec_chr_nil in H; discriminate|].
  rewrite exec_chr in H.
  destruct (N.eqb_spec x2 LBRACKET) as [->|]; [|discriminate].
  apply exec_star_sound in H as (target & s2 & caps1 & -> & Ht & H & ->).
  destruct s2 as [|x3 s2]; [rewrite exec_chr_nil in H; discriminate|].
  rewrite exec_chr in H.
  destruct (N.eqb_spec x3 PIPE) as [->|]; [|discriminate].
  apply exec_star_sound in H as (alias & s3 & caps2 & -> & Ha & H & ->).
  destruct s3 as [|x4 s3]; [rewrite exec_chr_nil in H; discriminate|].
  rewrite exec_chr in H.
  destruct (N.eqb_spec x4 RBRACKET) as [->|]; [|discriminate].
  destruct s3 as [|x5 s3]; [rewrite exec_chr_nil in H; discriminate|].
  rewrite exec_chr in H.
  destruct (N.eqb_spec x5 RBRACKET) as [->|]; [|discriminate].
  destruct s3 as [|x6 s3]; [|discriminate].
  injection H as <-. exists target, alias. repeat split.
  - apply (in_class_no_unit _ _ _ Ht). left. reflexivity.
  - apply (in_class_no_unit _ _ _ Ht). right. left. reflexivity.
  - apply (in_class_no_unit _ _ _ Ha). left. reflexivity.
Qed.

Lemma match_complete target alias :
  no_unit PIPE target -> no_unit RBRACKET target -> no_unit RBRACKET alias ->
  match_ ([LBRACKET; LBRACKET] ++ target ++ [PIPE] ++ alias ++ [RBRACKET; RBRACKET])
  = Some [target; alias].
Proof.
  intros Hp Ht Ha. unfold match_, WIKI_LINK_REGEX. simpl app.
  rewrite !exec_chr, !N.eqb_refl.
  apply exec_star_complete.
  - apply no_unit_in_class. intros c [<-|[<-|[]]]; assumption.
  - reflexivity.
  - rewrite exec_chr, N.eqb_refl.
    apply (exec_star_complete _ _ _ [RBRACKET; RBRACKET]).
    + apply no_unit_in_class. intros c [<-|[]]. assumption.
    + reflexivity.
    + reflexivity.
Qed.

Lemma parse_no_match s : match_ s = None -> parseWikiLink s = ([], []).
Proof. unfold parseWikiLink. intros ->. reflexivity. Qed.

Lemma match_none s :
  (forall target alias,
      s = [LBRACKET; LBRACKET] ++ target ++ [PIPE] ++ alias ++ [RBRACKET; RBRACKET] ->
      no_unit PIPE target -> no_unit RBRACKET target -> no_unit RBRACKET alias ->
      False) ->
  match_ s = None.
Proof.
  intros H. destruct (match_ s) as [caps|] eqn:E; [|reflexivity].
  apply match_sound in E as (target & alias & Hs & Hp & Ht & Ha & _).
  destruct (H target alias Hs Hp Ht Ha).
Qed.

(** An opening bracket pair inside the span of the link text: a second
    ["[["] from offset 2 on. *)
Definition nested_opening (s : jsstring) : Prop :=
  JS.indexOf s (JS.lit "[[") 2 <> -1.

End LinkTextParser.

(* ===================================================================== *)
(** * The tree matcher *)
(* ===================================================================== *)

Section TreeMatcher.

Import Editor buildDecorations.

(** A grammar role: the test on the fragments of a node's type name. *)
Definition role := list jsstring -> bool.

Definition has_role (r : role) (n : SyntaxNode) : bool :=
  r (JS.split UNDERSCORE (name n)).

(** The position one sibling further. *)
Definition moved (c : TreeCursor) (n : SyntaxNode) (rest : list SyntaxNode)
  : TreeCursor :=
  {| level := {| node := n;
                 before := node (level c) :: before (level c);
                 after := rest |};
     above := above c |}.

(** The store keeps what it held: every cursor object there before is
    there afterwards, at the same position. *)
Definition preserved (h h' : Heap) : Prop :=
  forall (i : ref) (c : TreeCursor), h !! i = Some c -> h' !! i = Some c.

(** The steps after the first one, each moving to the next sibling and
    testing it, ending in [final]. *)
Definition then_sibling (r : role) (next : ref -> M (option ref))
  : ref -> M (option ref) :=
  fun cursor =>
    moved <-- nextSibling cursor ;;
    if negb moved then ret None
    else onMatchContinue cursor (fun fragments => r fragments) next.

Fixpoint chain (roles : list role) (final : ref -> M (option ref))
  : ref -> M (option ref) :=
  match roles with
  | [] => final
  | r :: roles' => then_sibling r (chain roles' final)
  end.

Definition clone_found : ref -> M (option ref) :=
  fun cursor => clone <-- node_cursor cursor ;; ret (Some clone).

Definition later_roles : list role :=
  [isInternalLinkWithAlias; isInternalLinksPipe; isInternalLinksAlias; isFLinkEnd].

Lemma matchesInternalLink_chain cursor :
  matchesInternalLink cursor =
  (probe <-- node_cursor cursor ;;
   onMatchContinue probe (fun fragments => isFLinkStart fragments)
     (chain later_roles clone_found)).
Proof. reflexivity. Qed.

(** Where the probe ends when it follows the roles from a position: on
    the node of the last role, or nowhere when a sibling is missing or is
    not of its role. *)
Fixpoint follow (roles : list role) (c : TreeCursor) : option TreeCursor :=
  match roles with
  | [] => Some c
  | r :: roles' =>
      match after (level c) with
      | n :: rest => if has_role r n then follow roles' (moved c n rest) else None
      | [] => None
      end
  end.

Lemma lookup_last (h : Heap) (c : TreeCursor) : (h ++ [c]) !! List.length h = Some c.
Proof. apply list_lookup_middle. reflexivity. Qed.

Lemma insert_last (h : Heap) (c c' : TreeCursor) :
  <[List.length h := c']> (h ++ [c]) = h ++ [c'].
Proof.
  replace (List.length h) with (List.length h + 0)%nat by lia.
  rewrite insert_app_r. reflexivity.
Qed.

(** The probe is the newest object of the store; the chain moves it and
    nothing else. *)
Lemma chain_run (roles : list role) (h : Heap) (c : TreeCursor) :
  exists last : TreeCursor,
    chain roles clone_found (List.length h) (h ++ [c])
    = Some (match follow roles c with
            | Some e => (Some (S (List.length h)), h ++ [e; e])
            | None => (None, h ++ [last])
            end).
Proof.
  revert c. induction roles as [|r roles IH]; intros c; simpl.
  - exists c. unfold clone_found, node_cursor, bind, position, alloc, ret.
    rewrite lookup_last, length_app, <- app_assoc. simpl.
    replace (List.length h + 1)%nat with (S (List.length h)) by lia. reflexivity.
  - unfold then_sibling, bind, nextSibling. rewrite lookup_last.
    destruct (after (level c)) as [|n rest] eqn:Hafter.
    + exists c. reflexivity.
    + rewrite insert_last. simpl.
      unfold onMatchContinue, getFragments, bind, position, ret.
      rewrite lookup_last. simpl. fold (moved c n rest).
      change (r (JS.split UNDERSCORE (name n))) with (has_role r n).
      destruct (has_role r n); simpl.
      * apply IH.
      * eexists. reflexivity.
Qed.

(** The matcher as a function of the position of the cursor it is given. *)
Lemma matchesInternalLink_run (h : Heap) (cursor : ref) (c : TreeCursor) :
  h !! cursor = Some c ->
  exists last : TreeCursor,
    matchesInternalLink cursor h
    = Some (match (if has_role isFLinkStart (node (level c))
                   then follow later_roles c else None) with
            | Some e => (Some (S (List.length h)), h ++ [e; e])
            | None => (None, h ++ [last])
            end).
Proof.
  intros Hc. rewrite matchesInternalLink_chain.
  unfold bind at 1. unfold node_cursor, bind, position, alloc. rewrite Hc.
  unfold onMatchContinue, getFragments, bind, position, ret.
  rewrite lookup_last. simpl.
  change (isFLinkStart (JS.split UNDERSCORE (name (node (level c)))))
    with (has_role isFLinkStart (node (level c))).
  destruct (has_role isFLinkStart (node (level c))); cbn [negb].
  - exact (chain_run later_roles h c).
  - eexists. reflexivity.
Qed.

Lemma preserved_app (h tail : Heap) : preserved h (h ++ tail).
Proof. intros i c Hc. apply lookup_app_l_Some, Hc. Qed.

(** The roles of a link with alias do not line up on a run of siblings:
    some role finds no sibling left, or finds a sibling that is not of its
    kind, the roles before it having found theirs.  Nothing is asked of
    the siblings after that one. *)
Inductive mismatch : list role -> list SyntaxNode -> Prop :=
| mismatch_absent r roles :
    mismatch (r :: roles) []
| mismatch_role r roles n siblings :
    has_role r n = false ->
    mismatch (r :: roles) (n :: siblings)
| mismatch_later r roles n siblings :
    has_role r n = true ->
    mismatch roles siblings ->
    mismatch (r :: roles) (n :: siblings).

Lemma follow_mismatch roles c :
  mismatch roles (after (level c)) -> follow roles c = None.
Proof.
  remember (after (level c)) as siblings eqn:Hs. intros Hm. revert c Hs.
  induction Hm as [r roles|r roles n siblings Hr|r roles n siblings Hr Hm IH];
    intros c Hs; simpl; rewrite <- Hs; [reflexivity| |].
  - rewrite Hr. reflexivity.
  - rewrite Hr. apply IH. reflexivity.
Qed.

Lemma follow_or_mismatch roles c :
  (exists e, follow roles c = Some e) \/ mismatch roles (after (level c)).
Proof.
  revert c. induction roles as [|r roles IH]; intros c; simpl.
  - left. exists c. reflexivity.
  - destruct (after (level c)) as [|n rest] eqn:Hafter.
    + right. constructor.
    + destruct (has_role r n) eqn:Hr.
      * destruct (IH (moved c n rest)) as [He|Hm]; [left; exact He|].
        right. apply mismatch_later; assumption.
      * right. apply mismatch_role, Hr.
Qed.

Definition all_roles : list role := isFLinkStart :: later_roles.

End TreeMatcher.

Section TreeMatcherClaim.

Import Editor buildDecorations.

Lemma mismatch_all_roles c :
  mismatch all_roles (node (level c) :: after (level c)) ->
  (if has_role isFLinkStart (node (level c)) then follow later_roles c else None)
  = None.
Proof.
  intros Hm. inversion Hm as [|r roles n siblings Hr|r roles n siblings Hr Hm']; subst.
  - rewrite Hr. reflexivity.
  - rewrite Hr. apply follow_mismatch, Hm'.
Qed.

(** C4.  Given a cursor on the first of five siblings that are, in this
    order, a link start, a has-alias, an alias-pipe, an alias and a link
    end node, the matcher answers with a new cursor on the end node.  When
    the roles do not line up (a sibling is missing or is not of its role,
    whatever comes after it) it answers null.  In every case it answers,
    and the cursor it was given, like every cursor that existed before,
    stands where it stood.  One of the two cases always applies. *)
Theorem matchesInternalLink_five_roles_or_null :
  forall (h : Heap) (cursor : ref) (c : TreeCursor),
    h !! cursor = Some c ->
    (forall n2 n3 n4 n5 rest,
        after (level c) = n2 :: n3 :: n4 :: n5 :: rest ->
        has_role isFLinkStart (node (level c)) = true ->
        has_role isInternalLinkWithAlias n2 = true ->
        has_role isInternalLinksPipe n3 = true ->
        has_role isInternalLinksAlias n4 = true ->
        has_role isFLinkEnd n5 = true ->
        exists (found : ref) (h' : Heap),
          matchesInternalLink cursor h = Some (Some found, h')
          /\ h !! found = None
          /\ h' !! found
             = Some {| level := {| node := n5;
                                   before := n4 :: n3 :: n2 :: node (level c)
                                             :: before (level c);
                                   after := rest |};
                       above := above c |})
    /\ (mismatch all_roles (node (level c) :: after (level c)) ->
        exists h' : Heap, matchesInternalLink cursor h = Some (None, h'))
    /\ (exists (result : option ref) (h' : Heap),
          matchesInternalLink cursor h = Some (result, h')
          /\ preserved h h' /\ h' !! cursor = Some c)
    /\ ((exists n2 n3 n4 n5 rest,
            after (level c) = n2 :: n3 :: n4 :: n5 :: rest
            /\ has_role isFLinkStart (node (level c)) = true
            /\ has_role isInternalLinkWithAlias n2 = true
            /\ has_role isInternalLinksPipe n3 = true
            /\ has_role isInternalLinksAlias n4 = true
            /\ has_role isFLinkEnd n5 = true)
        \/ mismatch all_roles (node (level c) :: after (level c))).
Proof.
  intros h cursor c Hc.
  destruct (matchesInternalLink_run h cursor c Hc) as [last Hrun].
  split; [|split; [|split]].
  - intros n2 n3 n4 n5 rest Hafter H1 H2 H3 H4 H5.
    rewrite H1 in Hrun. unfold later_roles in Hrun. simpl in Hrun.
    rewrite Hafter, H2 in Hrun. simpl in Hrun. rewrite H3, H4, H5 in Hrun.
    eexists. eexists. split; [exact Hrun|]. split.
    + apply lookup_ge_None_2. lia.
    + replace (S (List.length h)) with (List.length h + 1)%nat by lia.
      rewrite lookup_app_r by lia.
      replace (List.length h + 1 - List.length h)%nat with 1%nat by lia.
      reflexivity.
  - intros Hm. rewrite (mismatch_all_roles c Hm) in Hrun.
    eexists. exact Hrun.
  - destruct (if has_role isFLinkStart (node (level c)) then _ else _) as [e|];
      eexists; eexists; (split; [exact Hrun|]);
      (split; [apply preserved_app | apply lookup_app_l_Some, Hc]).
  - unfold all_roles. destruct (has_role isFLinkStart (node (level c))) eqn:H1.
    2:{ right. apply mismatch_role, H1. }
    destruct (follow_or_mismatch later_roles c) as [[e He]|Hm].
    2:{ right. apply mismatch_later; assumption. }
    left. unfold later_roles in He. simpl in He.
    destruct (after (level c)) as [|n2 [|n3 [|n4 [|n5 rest]]]];
      try discriminate; simpl in He.
    + destruct (has_role _ n2); discriminate.
    + destruct (has_role _ n2); [|discriminate].
      destruct (has_role _ n3); discriminate.
    + destruct (has_role _ n2); [|discriminate].
      destruct (has_role _ n3); [|discriminate].
      destruct (has_role _ n4); discriminate.
    + destruct (has_role isInternalLinkWithAlias n2) eqn:H2; [|discriminate].
      destruct (has_role isInternalLinksPipe n3) eqn:H3; [|discriminate].
      destruct (has_role isInternalLinksAlias n4) eqn:H4; [|discriminate].
      destruct (has_role isFLinkEnd n5) eqn:H5; [|discriminate].
      exists n2, n3, n4, n5, rest. repeat split; assumption || reflexivity.
Qed.

End TreeMatcherClaim.

(* ===================================================================== *)
(** * The link completion scenario *)
(* ===================================================================== *)

Section CompletionScenario.

Import Editor CMLinkAliasReplacementPlugin.

Definition scenario_doc : jsstring := JS.lit "Note [[Target|@Foo]] end".

(** U+1F464, the two code units of its surrogate pair. *)
Definition bust : jsstring := [55357%N; 56420%N].

Definition scenario_link : Link.t :=
  {| Link.from := 5; Link.to := 20; Link.text := JS.lit "[[Target|@Foo]]" |}.

Definition scenario_spec (sel : EditorSelection) : TransactionSpec :=
  {| changes_from := 14;
     changes_to := 15;
     changes_insert := bust;
     spec_selection := sel;
     spec_userEvent := INPUT |}.

(** The rule of the scenario; its other fields are free. *)
Definition person_rule (rule : PrefixMapping.t) : Prop :=
  PrefixMapping.prefix rule = JS.lit "@"
  /\ PrefixMapping.emoji rule = bust
  /\ PrefixMapping.linkType rule = JS.lit "person".

Lemma scenario_lastIndexOf_down (k : nat) :
  (k <= 24)%nat ->
  JS.lastIndexOf_down scenario_doc OPEN k = None
  \/ JS.lastIndexOf_down scenario_doc OPEN k = Some 5%nat.
Proof.
  intros Hk.
  do 25 (destruct k as [|k]; [vm_compute; auto|]). lia.
Qed.

(** The only link of the scenario document spans offsets 5 to 20. *)
Lemma scenario_enclosing pos link :
  findEnclosingWikilink scenario_doc pos = Some link ->
  Link.from link = 5 /\ Link.to link = 20.
Proof.
  unfold findEnclosingWikilink, JS.lastIndexOf.
  assert (Hk : (Z.to_nat (JS.clamp pos 0 (JS.length scenario_doc)) <= 24)%nat).
  { change (JS.length scenario_doc) with 24. unfold JS.clamp. lia. }
  destruct (scenario_lastIndexOf_down _ Hk) as [-> | ->]; [discriminate|].
  change (JS.indexOf scenario_doc CLOSE (Z.of_nat 5)) with 18.
  change (18 =? -1) with false. change (Z.of_nat 5 =? -1) with false. cbv iota.
  destruct (_ || _); [discriminate|]. intros [= <-]. split; reflexivity.
Qed.

Lemma scenario_caret_exit (u : ViewUpdate) :
  doc (update_state u) = scenario_doc ->
  main (selection (update_state u)) = {| range_from := 20; range_to := 20 |} ->
  handleCaretExit u = [].
Proof.
  intros Hdoc Hsel. unfold handleCaretExit. rewrite Hdoc, Hsel.
  destruct (_ || _); [reflexivity|]. destruct (_ =? _); [reflexivity|].
  destruct (findEnclosingWikilink _ _) as [link|] eqn:Hlink; [|reflexivity].
  apply scenario_enclosing in Hlink as [-> ->]. reflexivity.
Qed.

Lemma scenario_alias (u : ViewUpdate) (rule : PrefixMapping.t) :
  person_rule rule ->
  facet (update_state u) = [rule] ->
  extractAlias u (Link.text scenario_link) (Link.from scenario_link)
  = Some {| AliasInfo.alias := JS.lit "@Foo";
            AliasInfo.from := 14;
            AliasInfo.prefixLength := 1 |}
  /\ resolveEmoji u (JS.lit "@Foo") = Some bust.
Proof.
  intros (Hprefix & Hemoji & _) Hfacet.
  destruct rule as [p e lt co bg al ul]. simpl in Hprefix, Hemoji. subst p e.
  split.
  - unfold extractAlias. rewrite Hfacet. vm_compute. reflexivity.
  - unfold resolveEmoji. rewrite Hfacet. vm_compute. reflexivity.
Qed.

(** C1.  In the document ["Note [[Target|@Foo]] end"], under the rule set
    of the one rule with prefix ["@"], emoji U+1F464 and link type
    ["person"], an update of one user input transaction that leaves a
    collapsed caret right after the ["]]"] (offset 20) makes the link
    completion detector find the link at offsets 5 to 20, extract the alias
    ["@Foo"] at offset 14 and queue one deferred dispatch, the only one of
    the update, that replaces the one code unit at offset 14, the ["@"],
    with the emoji; applied to the document it gives
    ["Note [[Target|"] followed by the emoji and ["Foo]] end"]. *)
Theorem completed_link_prefix_replaced_by_emoji :
  forall (u : ViewUpdate) (tr : Transaction) (rule : PrefixMapping.t),
    person_rule rule ->
    facet (update_state u) = [rule] ->
    doc (update_state u) = scenario_doc ->
    main (selection (update_state u)) = {| range_from := 20; range_to := 20 |} ->
    docChanged u = true ->
    transactions u = [tr] ->
    isUserEvent tr INPUT = true ->
    let queued :=
      {| timeout_view := view u;
         timeout_spec := scenario_spec (selection (update_state u)) |} in
    extractCompletedWikilink scenario_doc 20 = Some scenario_link
    /\ extractAlias u (Link.text scenario_link) (Link.from scenario_link)
       = Some {| AliasInfo.alias := JS.lit "@Foo";
                 AliasInfo.from := 14;
                 AliasInfo.prefixLength := 1 |}
    /\ handleLinkCompletion u = [queued]
    /\ update u = [queued]
    /\ JS.units scenario_doc 14 15 = JS.lit "@"
    /\ applyChanges scenario_doc (timeout_spec queued)
       = Some (JS.lit "Note [[Target|" ++ bust ++ JS.lit "Foo]] end").
Proof.
  intros u tr rule Hrule Hfacet Hdoc Hsel Hchanged Htrs Hinput queued.
  destruct (scenario_alias u rule Hrule Hfacet) as [Halias Hemoji].
  assert (Hlink : extractCompletedWikilink scenario_doc 20 = Some scenario_link)
    by (vm_compute; reflexivity).
  assert (Hqueued : handleLinkCompletion u = [queued]).
  { unfold handleLinkCompletion. rewrite Hdoc, Hsel.
    change (empty {| range_from := 20; range_to := 20 |}) with true.
    change (Editor.range_from {| range_from := 20; range_to := 20 |}) with 20.
    change (sliceString scenario_doc (Z.max 0 (20 - 2)) 20) with CLOSE.
    rewrite eqb_refl, Hlink. cbn [negb].
    unfold processAlias. rewrite Halias. cbn [AliasInfo.alias].
    rewrite Hemoji. reflexivity. }
  repeat split; try assumption.
  unfold update. rewrite Hchanged, Htrs. simpl. rewrite Hinput. simpl.
  rewrite Hqueued, (scenario_caret_exit u Hdoc Hsel).
  destruct (selectionSet u); reflexivity.
Qed.

End CompletionScenario.

(* ===================================================================== *)
(** * The link text parser: what it accepts and what it rejects *)
(* ===================================================================== *)

Section LinkTextParserClaim.

Import parse.

(** Every link text of the grammar is taken apart into its two parts. *)
Lemma parseWikiLink_well_formed target alias :
  no_unit PIPE target -> no_unit RBRACKET target -> no_unit RBRACKET alias ->
  parseWikiLink (JS.lit "[[" ++ target ++ JS.lit "|" ++ alias ++ JS.lit "]]")
  = (target, alias).
Proof.
  intros Hp Ht Ha. unfold parseWikiLink.
  change (JS.lit "[[") with [LBRACKET; LBRACKET].
  change (JS.lit "|") with [PIPE]. change (JS.lit "]]") with [RBRACKET; RBRACKET].
  rewrite (match_complete _ _ Hp Ht Ha). reflexivity.
Qed.

(** C5, as the code has it.  ["[[A|B]]"] is parsed into ["A"] and ["B"].
    Both parts are empty for every string without a pipe, for every
    string that does not start with ["[["] or does not end with ["]]"],
    and for every string with a closing bracket between its outer bracket
    pairs, as a nested pair that is closed has. *)
Theorem parseWikiLink_strict_grammar :
  parseWikiLink (JS.lit "[[A|B]]") = (JS.lit "A", JS.lit "B")
  /\ (forall s : jsstring, no_unit PIPE s -> parseWikiLink s = ([], []))
  /\ (forall s : jsstring,
        JS.startsWith s (JS.lit "[[") = false \/ JS.endsWith s (JS.lit "]]") = false ->
        parseWikiLink s = ([], []))
  /\ (forall inner : jsstring,
        In RBRACKET inner ->
        parseWikiLink (JS.lit "[[" ++ inner ++ JS.lit "]]") = ([], [])).
Proof.
  split; [vm_compute; reflexivity|]. split; [|split].
  - intros s Hs. apply parse_no_match, match_none.
    intros target alias -> _ _ _. apply Hs.
    simpl. right. right. apply in_or_app. right. left. reflexivity.
  - intros s Hs. apply parse_no_match, match_none.
    intros target alias -> _ _ _. destruct Hs as [Hs|Hs].
    + change (JS.lit "[[") with [LBRACKET; LBRACKET] in Hs.
      rewrite startsWith_app in Hs. discriminate.
    + unfold JS.endsWith in Hs.
      change (JS.lit "]]") with [RBRACKET; RBRACKET] in Hs.
      rewrite !app_assoc, rev_app_distr, startsWith_app in Hs. discriminate.
  - intros inner Hin. apply parse_no_match, match_none.
    intros target alias Hs Hp Ht Ha.
    change (JS.lit "[[") with [LBRACKET; LBRACKET] in Hs.
    change (JS.lit "]]") with [RBRACKET; RBRACKET] in Hs.
    apply app_inv_head in Hs.
    rewrite !app_assoc in Hs. apply app_inv_tail in Hs. subst inner.
    apply in_app_or in Hin as [Hin|Hin].
    + apply in_app_or in Hin as [Hin|[Hin|[]]]; [exact (Ht Hin) | discriminate].
    + exact (Ha Hin).
Qed.

(** The claim as it was stated also asks for two empty parts whenever a
    second ["[["] stands inside the span; ["[[A|B[[C]]"] has one and is
    parsed into ["A"] and ["B[[C"]. *)
Lemma parseWikiLink_nested_opening_accepted :
  ~ (forall s : jsstring,
        no_unit PIPE s
        \/ (JS.startsWith s (JS.lit "[[") = false \/ JS.endsWith s (JS.lit "]]") = false)
        \/ nested_opening s ->
        parseWikiLink s = ([], [])).
Proof.
  intros H. specialize (H (JS.lit "[[A|B[[C]]")).
  assert (Hnested : nested_opening (JS.lit "[[A|B[[C]]")).
  { unfold nested_opening. vm_compute. discriminate. }
  specialize (H (or_intror (or_intror Hnested))).
  vm_compute in H. discriminate.
Qed.

End LinkTextParserClaim.

(* ===================================================================== *)
(** * The link walker always finishes *)
(* ===================================================================== *)

Section WalkerTotal.

Import Editor buildDecorations.

Context {St : Type} (view : EditorView)
        (callback : Z -> Z -> jsstring -> jsstring -> St -> St).

Definition forest_size (ts : list SyntaxNode) : nat := list_sum (List.map size ts).

Lemma bind_run {A B} (m : M A) (k : A -> M B) h a h' :
  m h = Some (a, h') -> bind m k h = k a h'.
Proof. unfold bind. intros ->. reflexivity. Qed.

Lemma bind_bind_run {A B C} (m : M A) (f : A -> M B) (g : B -> M C) h b h1 :
  bind m f h = Some (b, h1) -> bind m (fun a => bind (f a) g) h = g b h1.
Proof.
  unfold bind. destruct (m h) as [[a h']|]; [|discriminate].
  intros ->. reflexivity.
Qed.

Lemma position_run (h : Heap) cursor c :
  h !! cursor = Some c -> position cursor h = Some (c, h).
Proof. unfold position. intros ->. reflexivity. Qed.

Lemma size_pos t : (1 <= size t)%nat.
Proof. destruct t. simpl. lia. Qed.

(** The two halves of one round of [traverse]. *)
Definition report (cursor : ref) (s : St) (matchCursor : option ref) : M St :=
  match matchCursor with
  | Some matchCursor =>
      c <-- position cursor ;;
      m <-- position matchCursor ;;
      let from := from (node (level c)) in
      let to := to (node (level m)) in
      let linkText := sliceDoc (state view) from to in
      let '(fname, alias) := parse.parseWikiLink linkText in
      ret (callback from to fname alias s)
  | None => ret s
  end.

Definition descend (fuel : nat) (cursor : ref) (s : St) (down : bool) : M St :=
  if down
  then s <-- traverse view callback fuel cursor s ;;
       _ <-- parent cursor ;;
       ret s
  else ret s.

Definition continue (fuel : nat) (cursor : ref) (s : St) : M St :=
  more <-- nextSibling cursor ;;
  if more then traverse view callback fuel cursor s else ret s.

Lemma traverse_round fuel cursor s :
  traverse view callback (S fuel) cursor s
  = (matchCursor <-- matchesInternalLink cursor ;;
     s <-- report cursor s matchCursor ;;
     down <-- firstChild cursor ;;
     s <-- descend fuel cursor s down ;;
     continue fuel cursor s).
Proof. reflexivity. Qed.



End WalkerTotal.

Section BuilderTotal.

Import Editor buildDecorations.


End BuilderTotal.

(* ===================================================================== *)
(** * The theorems at concrete inputs *)
(* ===================================================================== *)

Section Instances.

Import Editor buildDecorations CMLinkAliasReplacementPlugin.

Definition rule_of (prefix emoji linkType : jsstring) : PrefixMapping.t :=
  {| PrefixMapping.prefix := prefix;
     PrefixMapping.emoji := emoji;
     PrefixMapping.linkType := linkType;
     PrefixMapping.color := JS.lit "#ff0000";
     PrefixMapping.background := JS.lit "#ffffff";
     PrefixMapping.backgroundAlpha := QArith_base.Qmake 1 1;
     PrefixMapping.underline := true |}.

Definition caret (pos : Z) : EditorSelection :=
  {| main := {| range_from := pos; range_to := pos |}; others := [] |}.

(** The tree of a document that is one link with alias: the five nodes
    side by side under the top node. *)
Definition link_nodes (from : Z) (target alias : Z) : list SyntaxNode :=
  [ Node (JS.lit "formatting-link_formatting-link-start") from (from + 2) [];
    Node (JS.lit "hmd-internal-link_link-has-alias") (from + 2) (from + 2 + target) [];
    Node (JS.lit "hmd-internal-link_link-alias-pipe")
         (from + 2 + target) (from + 3 + target) [];
    Node (JS.lit "hmd-internal-link_link-alias")
         (from + 3 + target) (from + 3 + target + alias) [];
    Node (JS.lit "formatting-link_formatting-link-end")
         (from + 3 + target + alias) (from + 5 + target + alias) [] ].

Definition state_of (d : jsstring) (sel : EditorSelection) (t : SyntaxNode)
    (rules : list PrefixMapping.t) : EditorState :=
  {| doc := d; selection := sel; tree := t;
     settings_inputs := [rules]; settings_ref := 0 |}.

Definition person : PrefixMapping.t := rule_of (JS.lit "@") bust (JS.lit "person").

Definition scenario_tree : SyntaxNode :=
  Node (JS.lit "Document") 0 24 [Node (JS.lit "Paragraph") 0 24 (link_nodes 5 6 4)].

Definition scenario_state : EditorState :=
  state_of scenario_doc (caret 20) scenario_tree [person].

(** The state before the second closing bracket was typed. *)
Definition scenario_start : EditorState :=
  state_of (JS.lit "Note [[Target|@Foo] end") (caret 19)
           (Node (JS.lit "Document") 0 23 []) [person].

Definition typed : Transaction := {| userEvent := Some (JS.lit "input.type") |}.

Definition scenario_update : ViewUpdate :=
  {| view := {| state := scenario_state |};
     startState := scenario_start;
     update_state := scenario_state;
     transactions := [typed];
     docChanged := true;
     viewportChanged := false;
     selectionSet := true |}.

Lemma completed_link_prefix_replaced_by_emoji_witness :
  CMLinkAliasReplacementPlugin.update scenario_update
  = [ {| timeout_view := {| state := scenario_state |};
         timeout_spec := scenario_spec (caret 20) |} ]
  /\ applyChanges scenario_doc (scenario_spec (caret 20))
     = Some (JS.lit "Note [[Target|" ++ bust ++ JS.lit "Foo]] end").
Proof.
  assert (Hrule : person_rule person) by (repeat split).
  destruct (completed_link_prefix_replaced_by_emoji scenario_update typed person
              Hrule eq_refl eq_refl eq_refl eq_refl eq_refl eq_refl)
    as (_ & _ & _ & Hupdate & _ & Happlied).
  split; [exact Hupdate | exact Happlied].
Defined.

(** The walker and the builder on the scenario document: one annotation
    over the link, classified as a person. *)
Example scenario_decorations :
  buildLinkDecorations {| state := scenario_state |} [person]
  = Some [annotation empty_spec person 5 20].
Proof. reflexivity. Qed.

(** The rules and the template of the builder's tests. *)
Definition test1 : PrefixMapping.t :=
  rule_of (JS.lit "test1") [55357%N; 56524%N] (JS.lit "type1").
Definition test2 : PrefixMapping.t :=
  rule_of (JS.lit "test2") [55357%N; 56598%N] (JS.lit "type2").
Definition other : PrefixMapping.t :=
  rule_of (JS.lit "other") [55357%N; 56842%N] (JS.lit "type3").

Definition test_spec : MarkDecorationSpec :=
  {| attributes := Some (<[ JS.lit "class" := JS.lit "test-class" ]>
                           {[ DATA_SLD_TYPE := JS.lit "old-type" ]});
     properties := ∅ |}.

Lemma decorate_uses_first_matching_rule_witness :
  decorate [] [other; test1; test2] test_spec (JS.lit "test1-alias") 0 10
  = [annotation test_spec test1 0 10]
  /\ decorate [] [other; test2] test_spec (JS.lit "test1-alias") 0 10 = [].
Proof.
  destruct (decorate_uses_first_matching_rule [] test_spec (JS.lit "test1-alias") 0 10)
    as (Hfirst & Hnone & _).
  split.
  - apply (Hfirst [other] test1 [test2]).
    + constructor; [reflexivity | constructor].
    + reflexivity.
  - apply (Hnone [other; test2]).
    constructor; [reflexivity|]. constructor; [reflexivity | constructor].
Defined.

Lemma decoration_attributes_overlay_classification_witness :
  exists attrs : gmap jsstring jsstring,
    decorate [] [other; test1] test_spec (JS.lit "test1-alias") 0 10
    = [ {| rfrom := 0; rto := 10;
           value := mark {| attributes := Some attrs; properties := ∅ |} |} ]
    /\ attrs !! DATA_SLD_TYPE = Some (JS.lit "type1")
    /\ attrs !! JS.lit "class" = Some (JS.lit "test-class").
Proof.
  destruct (decoration_attributes_overlay_classification
              [] [other; test1] test_spec (JS.lit "test1-alias") 0 10 test1 eq_refl)
    as (attrs & Hadded & _ & Htype & Hkept).
  exists attrs. split; [exact Hadded|]. split; [exact Htype|].
  rewrite Hkept by discriminate. reflexivity.
Defined.

Definition location : PrefixMapping.t := rule_of (JS.lit ">") [] (JS.lit "location").
Definition navigation : PrefixMapping.t := rule_of (JS.lit ">") [] (JS.lit "navigation").

Lemma combine_last_write_wins_first_insertion_order_witness :
  SettingsFacet.combine [[location]; [navigation]] = [navigation]
  /\ List.length (SettingsFacet.combine [[location]; [navigation]]) = 1%nat
  /\ List.map PrefixMapping.prefix
       (SettingsFacet.combine [[location; person]; [navigation]])
     = [JS.lit ">"; JS.lit "@"].
Proof.
  destruct (combine_last_write_wins_first_insertion_order
              [[location; person]; [navigation]]) as (Hkeys & _ & Hpair).
  destruct (Hpair location navigation eq_refl) as [Hone Hlength].
  split; [exact Hone|]. split; [exact Hlength|]. exact Hkeys.
Defined.

Example combine_keeps_first_position :
  SettingsFacet.combine [[location; person]; [navigation]] = [navigation; person].
Proof. reflexivity. Qed.

(** Fragments beyond the two that identify a role are tolerated. *)
Example extra_fragments_tolerated :
  has_role isFLinkStart
    (Node (JS.lit "formatting_formatting-link_formatting-link-start_link") 0 2 [])
  = true.
Proof. reflexivity. Qed.

(** A cursor on the first node of the scenario's link. *)
Definition on_link_start : TreeCursor :=
  {| level := {| node := Node (JS.lit "formatting-link_formatting-link-start") 5 7 [];
                 before := [];
                 after := tl (link_nodes 5 6 4) |};
     above := [ {| node := Node (JS.lit "Paragraph") 0 24 (link_nodes 5 6 4);
                   before := []; after := [] |};
                {| node := scenario_tree; before := []; after := [] |} ] |}.

Lemma matchesInternalLink_five_roles_or_null_witness :
  exists (found : ref) (h' : Heap),
    matchesInternalLink 0%nat [on_link_start] = Some (Some found, h')
    /\ (node <$> (level <$> h' !! found))
       = Some (Node (JS.lit "formatting-link_formatting-link-end") 18 20 [])
    /\ h' !! 0%nat = Some on_link_start.
Proof.
  destruct (matchesInternalLink_five_roles_or_null [on_link_start] 0%nat on_link_start eq_refl)
    as (Hfound & _ & (result & h2 & Hrun2 & _ & Hsame) & _).
  destruct (Hfound _ _ _ _ [] eq_refl eq_refl eq_refl eq_refl eq_refl eq_refl)
    as (found & h' & Hrun & _ & Hend).
  exists found, h'. split; [exact Hrun|]. split.
  - rewrite Hend. reflexivity.
  - rewrite Hrun in Hrun2. injection Hrun2 as _ <-. exact Hsame.
Defined.

Lemma parseWikiLink_strict_grammar_witness :
  parse.parseWikiLink (JS.lit "[[NurPrefix]]") = ([], [])
  /\ parse.parseWikiLink (JS.lit "InhaltA|InhaltB") = ([], [])
  /\ parse.parseWikiLink (JS.lit "[[NurPrefix|Alias]") = ([], [])
  /\ parse.parseWikiLink (JS.lit "[[A|B[[C]]]]") = ([], []).
Proof.
  destruct parseWikiLink_strict_grammar as (_ & Hpipe & Hbrackets & Hclosing).
  split; [|split; [|split]].
  - apply Hpipe. unfold no_unit. vm_compute. intuition discriminate.
  - apply Hbrackets. left. reflexivity.
  - apply Hbrackets. right. reflexivity.
  - apply (Hclosing (JS.lit "A|B[[C]]")). vm_compute. intuition.
Defined.

(** A rule whose replacement starts with its own prefix, and a link whose
    alias is that replacement already. *)
Definition bust_rule : PrefixMapping.t := rule_of bust bust (JS.lit "person").

Definition replaced_doc : jsstring := JS.lit "[[T|" ++ bust ++ JS.lit "]] x".

Definition replaced_link : Link.t :=
  {| Link.from := 0; Link.to := 8; Link.text := JS.lit "[[T|" ++ bust ++ JS.lit "]]" |}.

Definition replaced_state (pos : Z) : EditorState :=
  state_of replaced_doc (caret pos) (Node (JS.lit "Document") 0 10 []) [bust_rule].

Definition leave_replaced : ViewUpdate :=
  {| view := {| state := replaced_state 10 |};
     startState := replaced_state 6;
     update_state := replaced_state 10;
     transactions := [];
     docChanged := false;
     viewportChanged := false;
     selectionSet := true |}.

Lemma alias_equal_to_replacement_queues_nothing_witness :
  findEnclosingWikilink replaced_doc 6 = Some replaced_link
  /\ processAlias leave_replaced replaced_link = []
  /\ handleCaretExit leave_replaced = [].
Proof.
  assert (Hguard : already_replaced leave_replaced replaced_link).
  { exists {| AliasInfo.alias := bust; AliasInfo.from := 4; AliasInfo.prefixLength := 2 |}, bust.
    repeat split. }
  destruct (alias_equal_to_replacement_queues_nothing leave_replaced replaced_link Hguard)
    as (Hprocess & _ & Hexit).
  split; [reflexivity|]. split; [exact Hprocess|]. apply Hexit. reflexivity.
Defined.

Definition selection_only : ViewUpdate :=
  {| view := {| state := scenario_state |};
     startState := state_of scenario_doc (caret 5) scenario_tree [person];
     update_state := scenario_state;
     transactions := [];
     docChanged := false;
     viewportChanged := false;
     selectionSet := true |}.

Lemma update_without_change_keeps_decorations_witness :
  CMLinkDecoratorPlugin.update
    {| CMLinkDecoratorPlugin.decorations := [annotation empty_spec person 5 20] |}
    selection_only
  = Some {| CMLinkDecoratorPlugin.decorations := [annotation empty_spec person 5 20] |}.
Proof.
  apply (update_without_change_keeps_decorations _ selection_only); reflexivity.
Defined.

(** The caret goes from inside the scenario's link to its end offset. *)
Definition to_link_end : ViewUpdate :=
  {| view := {| state := scenario_state |};
     startState := state_of scenario_doc (caret 10) scenario_tree [person];
     update_state := scenario_state;
     transactions := [];
     docChanged := false;
     viewportChanged := false;
     selectionSet := true |}.

Lemma caret_on_link_boundary_counts_as_inside_witness :
  findEnclosingWikilink scenario_doc 10 = Some scenario_link
  /\ handleCaretExit to_link_end = [].
Proof.
  split; [reflexivity|].
  apply (proj1 (caret_on_link_boundary_counts_as_inside to_link_end scenario_link
                  eq_refl eq_refl eq_refl (or_intror eq_refl))).
Defined.

End Instances.

(* ===================================================================== *)
(** * More about the link text parser *)
(* ===================================================================== *)

Section LinkTextParserMore.

Import parse.

(** X1.  Round trip: a target without pipe and closing bracket and an
    alias without closing bracket, written as a link text, are parsed
    back into the same two parts; either part may be empty. *)
Theorem parseWikiLink_round_trip :
  forall target alias : jsstring,
    no_unit PIPE target -> no_unit RBRACKET target -> no_unit RBRACKET alias ->
    parseWikiLink (JS.lit "[[" ++ target ++ JS.lit "|" ++ alias ++ JS.lit "]]")
    = (target, alias).
Proof.
  intros target alias Hp Ht Ha. unfold parseWikiLink.
  change (JS.lit "[[") with [LBRACKET; LBRACKET].
  change (JS.lit "|") with [PIPE]. change (JS.lit "]]") with [RBRACKET; RBRACKET].
  rewrite (match_complete _ _ Hp Ht Ha). reflexivity.
Qed.

(** X2.  The parts the parser answers with never hold a closing bracket,
    the target never holds a pipe, and unless both parts are empty the
    input is the two parts written as a link text, nothing before and
    nothing after. *)
Theorem parseWikiLink_inverts :
  forall s target alias : jsstring,
    parseWikiLink s = (target, alias) ->
    no_unit PIPE target /\ no_unit RBRACKET target /\ no_unit RBRACKET alias
    /\ ((target = [] /\ alias = [])
        \/ s = JS.lit "[[" ++ target ++ JS.lit "|" ++ alias ++ JS.lit "]]").
Proof.
  intros s target alias. unfold parseWikiLink.
  destruct (match_ s) as [caps|] eqn:E.
  - apply match_sound in E as (t & a & Hs & Hp & Ht & Ha & ->).
    simpl. intros [= <- <-]. repeat split; try assumption. right. exact Hs.
  - simpl. intros [= <- <-]. repeat split; try (intros []). left. split; reflexivity.
Qed.

End LinkTextParserMore.

(* ===================================================================== *)
(** * More about the rule set merge *)
(* ===================================================================== *)

Section RuleSetMergeMore.

Import SettingsFacet.

Abbreviation prefix := PrefixMapping.prefix.

Lemma combine_keys values :
  List.map prefix (combine values)
  = first_occurrences (List.map prefix (concat values)).
Proof.
  rewrite combine_flat.
  destruct (merged_set_all (concat values)) as [Hkeyed Hkeys _].
  rewrite keyed_values by exact Hkeyed. exact Hkeys.
Qed.

Lemma combine_last values m :
  In m (combine values) -> last_written (prefix m) (concat values) = Some m.
Proof.
  rewrite combine_flat.
  destruct (merged_set_all (concat values)) as [Hkeyed _ Hlast].
  unfold Map_values. intros Hin. apply in_map_iff in Hin as ([k v] & <- & Hin).
  rewrite List.Forall_forall in Hkeyed.
  pose proof (Hkeyed _ Hin) as Hk. simpl in Hk |- *. rewrite Hk.
  apply Hlast, Hin.
Qed.

(** X3.  The merge invents no rule and loses no prefix: every rule of the
    output is one of the contributed rules, every contributed rule has a
    rule of the same prefix in the output, and the output is never longer
    than the contributions taken together. *)
Theorem combine_members :
  forall values : list (list PrefixMapping.t),
    (forall m, In m (combine values) -> In m (concat values))
    /\ (forall r, In r (concat values) ->
          exists m, In m (combine values) /\ prefix m = prefix r)
    /\ (List.length (combine values) <= List.length (concat values))%nat.
Proof.
  intros values. split; [|split].
  - intros m Hin. apply combine_last in Hin. unfold last_written in Hin.
    apply find_some in Hin as [Hin _]. apply in_rev, Hin.
  - intros r Hin. apply (in_map prefix) in Hin.
    apply first_occurrences_In in Hin. rewrite <- combine_keys in Hin.
    apply in_map_iff in Hin as (m & Hm & Hin). exists m. split; assumption.
  - rewrite <- (List.length_map prefix (combine values)).
    rewrite <- (List.length_map prefix (concat values)).
    apply List.NoDup_incl_length.
    + rewrite combine_keys. apply first_occurrences_NoDup.
    + intros k Hk. rewrite combine_keys in Hk. apply first_occurrences_In, Hk.
Qed.

Lemma first_occurrences_distinct keys :
  List.NoDup keys -> first_occurrences keys = keys.
Proof.
  induction 1 as [|k keys Hfresh _ IH]; simpl; [reflexivity|].
  rewrite IH. f_equal. apply List.forallb_filter_id.
  apply forallb_forall. intros k' Hk'. apply negb_true_iff, eqb_neq.
  intros ->. exact (Hfresh Hk').
Qed.

(** Two lists of rules with the same prefixes, place by place, whose
    rules are each the one a lookup gives for their prefix, are equal. *)
Lemma rules_by_prefix (f : jsstring -> option PrefixMapping.t) l1 l2 :
  List.map prefix l1 = List.map prefix l2 ->
  (forall m, In m l1 -> f (prefix m) = Some m) ->
  (forall m, In m l2 -> f (prefix m) = Some m) ->
  l1 = l2.
Proof.
  revert l2. induction l1 as [|a l1 IH]; intros [|b l2] Hkeys H1 H2;
    try discriminate; [reflexivity|].
  injection Hkeys as Hk Hkeys.
  assert (a = b) as ->.
  { pose proof (H1 a (or_introl eq_refl)) as Ha.
    pose proof (H2 b (or_introl eq_refl)) as Hb. congruence. }
  f_equal. apply IH; [exact Hkeys | |]; intros m Hm; [apply H1 | apply H2];
    right; exact Hm.
Qed.

Lemma combine_of_distinct (values : list (list PrefixMapping.t)) :
  List.NoDup (List.map prefix (concat values)) ->
  combine values = concat values.
Proof.
  intros Hnd.
  apply (rules_by_prefix (fun k => last_written k (concat values))).
  - rewrite combine_keys. apply first_occurrences_distinct, Hnd.
  - apply combine_last.
  - intros m Hm. unfold last_written.
    destruct (List.find _ (rev (concat values))) as [m'|] eqn:E.
    + apply find_some in E as [Hin Heq]. apply eqb_eq in Heq.
      apply in_rev in Hin. f_equal.
      clear -Hnd Hm Hin Heq. induction (concat values) as [|r l IH]; [destruct Hm|].
      simpl in Hnd. apply List.NoDup_cons_iff in Hnd as [Hfresh Hnd].
      destruct Hm as [->|Hm], Hin as [->|Hin]; try reflexivity.
      * destruct Hfresh. rewrite <- Heq. apply in_map, Hin.
      * destruct Hfresh. rewrite Heq. apply in_map, Hm.
      * apply IH; assumption.
    + pose proof (List.find_none _ _ E m (proj1 (in_rev _ _) Hm)) as Hm'.
      simpl in Hm'. rewrite eqb_refl in Hm'. discriminate.
Qed.

(** X4.  Contributions in which no prefix occurs twice are merged into
    their plain concatenation, in contribution order. *)
Theorem combine_distinct_prefixes_is_concatenation :
  forall values : list (list PrefixMapping.t),
    List.NoDup (List.map prefix (concat values)) ->
    combine values = concat values.
Proof. exact combine_of_distinct. Qed.

Lemma first_occurrences_again keys extra :
  incl extra keys ->
  first_occurrences (keys ++ extra) = first_occurrences keys.
Proof.
  induction extra as [|k extra IH] using rev_ind; intros Hincl.
  - rewrite app_nil_r. reflexivity.
  - rewrite app_assoc, first_occurrences_snoc, IH.
    + replace (has_key k (first_occurrences keys)) with true; [apply app_nil_r|].
      symmetry. apply has_key_In, first_occurrences_In, Hincl.
      apply in_or_app. right. left. reflexivity.
    + intros x Hx. apply Hincl, in_or_app. left. exact Hx.
Qed.

Lemma find_app_or {A} (p : A -> bool) (l l' : list A) :
  List.find p (l ++ l')
  = match List.find p l with Some x => Some x | None => List.find p l' end.
Proof.
  induction l as [|x l IH]; simpl; [reflexivity|].
  destruct (p x); [reflexivity | exact IH].
Qed.

Lemma last_written_again k rules :
  last_written k (rules ++ rules) = last_written k rules.
Proof.
  unfold last_written. rewrite rev_app_distr, find_app_or.
  destruct (List.find _ (rev rules)); reflexivity.
Qed.

(** X5.  Merging is idempotent: contributing every array a second time
    changes nothing, as when the same mappings reach the facet through two
    compartments, and merging a merged rule set gives it back. *)
Theorem combine_idempotent :
  forall values : list (list PrefixMapping.t),
    combine (values ++ values) = combine values
    /\ combine [combine values] = combine values.
Proof.
  intros values. split.
  - apply (rules_by_prefix (fun k => last_written k (concat values))).
    + rewrite !combine_keys, concat_app, List.map_app.
      apply first_occurrences_again. intros x Hx. exact Hx.
    + intros m Hm. apply combine_last in Hm.
      rewrite concat_app, last_written_again in Hm. exact Hm.
    + apply combine_last.
  - rewrite combine_of_distinct; simpl; rewrite app_nil_r.
    + reflexivity.
    + rewrite combine_keys. apply first_occurrences_NoDup.
Qed.

End RuleSetMergeMore.

(* ===================================================================== *)
(** * More facts about the string operations *)
(* ===================================================================== *)

Section StringFactsMore.

Implicit Types s pat : jsstring.

(** [pat] stands in [s] at offset [k]. *)
Definition occurs_at (s pat : jsstring) (k : Z) : Prop :=
  0 <= k /\ JS.startsWith (skipn (Z.to_nat k) s) pat = true.

Lemma startsWith_length s pat :
  JS.startsWith s pat = true -> (List.length pat <= List.length s)%nat.
Proof.
  intros H. apply startsWith_spec in H as [rest ->]. rewrite List.length_app. lia.
Qed.

Lemma occurs_at_fits s pat k :
  occurs_at s pat k -> pat <> [] -> k + JS.length pat <= JS.length s.
Proof.
  intros [Hk H] Hpat. apply startsWith_length in H.
  rewrite List.length_skipn in H. unfold JS.length.
  destruct pat; [congruence|]. simpl in *. lia.
Qed.

Lemma occurs_at_units s pat k :
  occurs_at s pat k -> JS.units s k (k + JS.length pat) = pat.
Proof. intros [Hk H]. apply units_startsWith; assumption. Qed.

Lemma length_units s a b :
  0 <= a -> a <= b -> b <= JS.length s -> JS.length (JS.units s a b) = b - a.
Proof.
  intros Ha Hab Hb. unfold JS.units, JS.length in *.
  rewrite List.length_firstn, List.length_skipn. lia.
Qed.

Lemma units_units s a b c d :
  0 <= a -> 0 <= c -> c <= d -> d <= b - a ->
  JS.units (JS.units s a b) c d = JS.units s (a + c) (a + d).
Proof.
  intros Ha Hc Hcd Hd. unfold JS.units.
  rewrite skipn_firstn_comm, firstn_firstn, skipn_skipn.
  replace (Z.to_nat (a + c)) with (Z.to_nat c + Z.to_nat a)%nat by lia.
  f_equal. lia.
Qed.

(** [slice] with a start inside the string and an end that is not
    negative. *)
Lemma slice_units s a b :
  0 <= a -> a <= JS.length s -> 0 <= b ->
  JS.slice s a b = JS.units s a (Z.max a (Z.min b (JS.length s))).
Proof.
  intros Ha Hlen Hb. unfold JS.slice, JS.relative.
  destruct (Z.ltb_spec a 0); [lia|]. destruct (Z.ltb_spec b 0); [lia|].
  f_equal; lia.
Qed.

(** [slice] that leaves out the last two code units. *)
Lemma slice_but_two s a :
  0 <= a -> a <= JS.length s ->
  JS.slice s a (-2) = JS.units s a (Z.max a (JS.length s - 2)).
Proof.
  intros Ha Hlen. unfold JS.slice, JS.relative.
  destruct (Z.ltb_spec a 0); [lia|]. change (-2 <? 0) with true. cbv iota.
  f_equal; lia.
Qed.

Lemma endsWith_units s pat :
  JS.length pat <= JS.length s ->
  JS.units s (JS.length s - JS.length pat) (JS.length s) = pat ->
  JS.endsWith s pat = true.
Proof.
  intros Hlen H. unfold JS.endsWith.
  rewrite <- (firstn_skipn (Z.to_nat (JS.length s - JS.length pat)) s) at 1.
  replace (skipn (Z.to_nat (JS.length s - JS.length pat)) s) with pat.
  - rewrite rev_app_distr. apply startsWith_app.
  - unfold JS.units in H. rewrite firstn_all2 in H; [symmetry; exact H|].
    rewrite List.length_skipn. unfold JS.length in *. lia.
Qed.

Lemma indexOf_from_first s pat start k j :
  JS.indexOf_from s pat start = Some k ->
  (start <= j < k)%nat ->
  JS.startsWith (skipn (j - start) s) pat = false.
Proof.
  revert start. induction s as [|c s IH]; intros start; cbn [JS.indexOf_from].
  - destruct (JS.startsWith [] pat); intros [= <-]; lia.
  - destruct (JS.startsWith (c :: s) pat) eqn:E.
    + intros [= <-]. lia.
    + intros H Hj. destruct (Nat.eq_dec j start) as [->|Hne].
      * rewrite Nat.sub_diag. exact E.
      * replace (j - start)%nat with (S (j - S start)) by lia.
        apply (IH (S start)); [exact H | lia].
Qed.

(** A found index is the first one from the start of the search. *)
Lemma indexOf_first s pat pos j :
  JS.indexOf s pat pos <> -1 ->
  JS.clamp pos 0 (JS.length s) <= j < JS.indexOf s pat pos ->
  ~ occurs_at s pat j.
Proof.
  unfold JS.indexOf.
  destruct (JS.indexOf_from _ pat _) as [k|] eqn:E; [|congruence].
  intros _ Hj [_ Hocc].
  pose proof (clamp_range pos _ (length_nonneg s)) as Hc.
  apply (indexOf_from_first _ _ _ _ (Z.to_nat j)) in E; [|lia].
  rewrite skipn_skipn in E.
  replace (Z.to_nat j - Z.to_nat (JS.clamp pos 0 (JS.length s))
           + Z.to_nat (JS.clamp pos 0 (JS.length s)))%nat with (Z.to_nat j) in E by lia.
  congruence.
Qed.

Lemma lastIndexOf_down_last s pat start k j :
  JS.lastIndexOf_down s pat start = Some k ->
  (k < j <= start)%nat ->
  JS.startsWith (skipn j s) pat = false.
Proof.
  induction start as [|n IH]; cbn [JS.lastIndexOf_down].
  - destruct (JS.startsWith (skipn 0 s) pat); intros [= <-]; lia.
  - destruct (JS.startsWith (skipn (S n) s) pat) eqn:E.
    + intros [= <-]. lia.
    + intros H Hj. destruct (Nat.eq_dec j (S n)) as [->|Hne]; [exact E|].
      apply IH; [exact H | lia].
Qed.

(** A found last index is the last one up to the start of the search. *)
Lemma lastIndexOf_last s pat pos j :
  JS.lastIndexOf s pat pos <> -1 ->
  JS.lastIndexOf s pat pos < j <= JS.clamp pos 0 (JS.length s) ->
  ~ occurs_at s pat j.
Proof.
  unfold JS.lastIndexOf.
  destruct (JS.lastIndexOf_down s pat _) as [k|] eqn:E; [|congruence].
  intros _ Hj [_ Hocc].
  apply (lastIndexOf_down_last _ _ _ _ (Z.to_nat j)) in E; [congruence | lia].
Qed.

Lemma indexOf_occurs s pat pos :
  JS.indexOf s pat pos <> -1 -> occurs_at s pat (JS.indexOf s pat pos).
Proof.
  intros H. split; [|apply indexOf_found, H].
  pose proof (indexOf_ge _ _ _ H). pose proof (clamp_range pos _ (length_nonneg s)). lia.
Qed.

Lemma lastIndexOf_occurs s pat pos :
  JS.lastIndexOf s pat pos <> -1 -> occurs_at s pat (JS.lastIndexOf s pat pos).
Proof.
  intros H. split; [|apply lastIndexOf_found, H].
  apply (lastIndexOf_range _ _ _ H).
Qed.

(** An occurrence inside a part of the string is one in the string. *)
Lemma occurs_at_units_inside s pat a b k :
  0 <= a -> a <= b -> b <= JS.length s -> pat <> [] ->
  occurs_at (JS.units s a b) pat k -> occurs_at s pat (a + k).
Proof.
  intros Ha Hab Hb Hpat Hocc.
  pose proof (occurs_at_fits _ _ _ Hocc Hpat) as Hfit.
  rewrite length_units in Hfit by assumption.
  pose proof (occurs_at_units _ _ _ Hocc) as Hunits.
  destruct Hocc as [Hk _].
  pose proof (length_nonneg pat).
  rewrite units_units in Hunits by lia.
  split; [lia|].
  unfold JS.units in Hunits. apply startsWith_spec.
  exists (skipn (Z.to_nat (a + k + JS.length pat - (a + k))) (skipn (Z.to_nat (a + k)) s)).
  rewrite <- Hunits at 1.
  replace (a + (k + JS.length pat)) with (a + k + JS.length pat) by lia.
  symmetry. apply firstn_skipn.
Qed.

End StringFactsMore.

(* ===================================================================== *)
(** * More about the alias replacement plugin *)
(* ===================================================================== *)

Section AliasReplacementMore.

Import Editor CMLinkAliasReplacementPlugin.

(** Splitting the conjunctions that are written out in a goal. *)
Ltac conjuncts := repeat match goal with |- _ /\ _ => split end.

Lemma occurs_at_nth s pat k i :
  occurs_at s pat k -> (i < List.length pat)%nat ->
  nth_error s (Z.to_nat k + i) = nth_error pat i.
Proof.
  intros [_ H] Hi. apply startsWith_spec in H as [rest Hrest].
  rewrite <- (firstn_skipn (Z.to_nat k) s), Hrest.
  assert (Hlen : (Z.to_nat k <= List.length s)%nat).
  { destruct (Nat.le_gt_cases (Z.to_nat k) (List.length s)) as [|Hgt]; [assumption|].
    rewrite skipn_all2 in Hrest by lia. destruct pat; [simpl in Hi; lia | discriminate]. }
  rewrite nth_error_app2; rewrite List.length_firstn; [|lia].
  replace (Z.to_nat k + i - Nat.min (Z.to_nat k) (List.length s))%nat with i by lia.
  apply nth_error_app1, Hi.
Qed.

Lemma units_occurs s pat k :
  0 <= k -> JS.units s k (k + JS.length pat) = pat -> occurs_at s pat k.
Proof.
  intros Hk H. split; [exact Hk|]. apply startsWith_spec.
  unfold JS.units in H.
  exists (skipn (Z.to_nat (k + JS.length pat - k)) (skipn (Z.to_nat k) s)).
  rewrite <- H at 1. symmetry. apply firstn_skipn.
Qed.

(** An opening pair and a closing pair do not overlap. *)
Lemma open_before_close s i j :
  occurs_at s OPEN i -> occurs_at s CLOSE j -> i <= j -> i + 2 <= j.
Proof.
  intros Hi Hj Hle.
  pose proof (occurs_at_nth _ _ _ 0 Hi ltac:(simpl; lia)) as Hi0.
  pose proof (occurs_at_nth _ _ _ 1 Hi ltac:(simpl; lia)) as Hi1.
  pose proof (occurs_at_nth _ _ _ 0 Hj ltac:(simpl; lia)) as Hj0.
  destruct Hi as [Hi _], Hj as [Hj _].
  destruct (Z.eq_dec j i) as [->|]; [rewrite Hi0 in Hj0; discriminate|].
  destruct (Z.eq_dec j (i + 1)) as [->|]; [|lia].
  replace (Z.to_nat (i + 1) + 0)%nat with (Z.to_nat i + 1)%nat in Hj0 by lia.
  rewrite Hi1 in Hj0. discriminate.
Qed.

Lemma close_after_open s i j :
  occurs_at s OPEN i -> occurs_at s CLOSE j -> i <= j + 1 -> i + 2 <= j.
Proof.
  intros Hi Hj Hle.
  destruct (Z_le_gt_dec i j) as [|Hgt]; [apply (open_before_close s); assumption|].
  assert (i = j + 1) as -> by lia.
  pose proof (occurs_at_nth _ _ _ 0 Hi ltac:(simpl; lia)) as Hi0.
  pose proof (occurs_at_nth _ _ _ 1 Hj ltac:(simpl; lia)) as Hj1.
  destruct Hj as [Hj _].
  replace (Z.to_nat (j + 1) + 0)%nat with (Z.to_nat j + 1)%nat in Hi0 by lia.
  rewrite Hi0 in Hj1. discriminate.
Qed.

Lemma findEnclosingWikilink_facts :
  forall (doc : jsstring) (pos : Z) (link : Link.t),
    findEnclosingWikilink doc pos = Some link ->
    0 <= Link.from link /\ Link.from link <= pos <= Link.to link
    /\ Link.from link + 4 <= Link.to link /\ Link.to link <= JS.length doc
    /\ Link.text link = JS.units doc (Link.from link) (Link.to link)
    /\ occurs_at doc OPEN (Link.from link)
    /\ occurs_at doc CLOSE (Link.to link - 2)
    /\ (forall j, Link.from link < j <= pos -> ~ occurs_at doc OPEN j)
    /\ (forall j, Link.from link <= j < Link.to link - 2 -> ~ occurs_at doc CLOSE j).
Proof.
  intros doc pos link. unfold findEnclosingWikilink.
  destruct (Z.eqb_spec (JS.lastIndexOf doc OPEN pos) (-1)) as [|Hopen]; [discriminate|].
  destruct (Z.eqb_spec (JS.indexOf doc CLOSE (JS.lastIndexOf doc OPEN pos)) (-1))
    as [|Hclose]; [discriminate|].
  destruct (orb _ _) eqn:Hin; [discriminate|].
  intros [= <-]. simpl.
  apply orb_false_iff in Hin as [Hlo Hhi].
  apply Z.ltb_ge in Hlo. rewrite Z.gtb_ltb in Hhi. apply Z.ltb_ge in Hhi.
  set (open := JS.lastIndexOf doc OPEN pos) in *.
  set (close := JS.indexOf doc CLOSE open) in *.
  pose proof (lastIndexOf_range _ _ _ Hopen) as Ho. fold open in Ho.
  pose proof (indexOf_ge _ _ _ Hclose) as Hc. fold close in Hc.
  pose proof (lastIndexOf_occurs _ _ _ Hopen) as Hoo. fold open in Hoo.
  pose proof (indexOf_occurs _ _ _ Hclose) as Hoc. fold close in Hoc.
  pose proof (occurs_at_fits _ _ _ Hoc ltac:(discriminate)) as Hfit.
  change (JS.length CLOSE) with 2 in Hfit.
  pose proof (length_nonneg doc) as Hlen.
  assert (Hcl : JS.clamp open 0 (JS.length doc) = open) by (unfold JS.clamp in *; lia).
  rewrite Hcl in Hc.
  pose proof (open_before_close _ _ _ Hoo Hoc Hc) as Hgap.
  conjuncts; try lia.
  - rewrite slice_units by lia. f_equal. lia.
  - exact Hoo.
  - replace (close + 2 - 2) with close by lia. exact Hoc.
  - intros j Hj. apply (lastIndexOf_last doc OPEN pos j Hopen).
    fold open. unfold JS.clamp. lia.
  - intros j Hj. apply (indexOf_first doc CLOSE open j Hclose).
    fold close. rewrite Hcl. lia.
Qed.

(** X6.  The link [findEnclosingWikilink] answers with lies in the
    document around the position, is at least four code units long, and
    its text is the document from its start to its end; it starts at the
    last ["[["] that begins at or before the position and ends with the
    first ["]]"] from there. *)
Theorem findEnclosingWikilink_sound :
  forall (doc : jsstring) (pos : Z) (link : Link.t),
    findEnclosingWikilink doc pos = Some link ->
    0 <= Link.from link /\ Link.from link <= pos <= Link.to link
    /\ Link.from link + 4 <= Link.to link /\ Link.to link <= JS.length doc
    /\ Link.text link = JS.units doc (Link.from link) (Link.to link)
    /\ occurs_at doc OPEN (Link.from link)
    /\ occurs_at doc CLOSE (Link.to link - 2)
    /\ (forall j, Link.from link < j <= pos -> ~ occurs_at doc OPEN j)
    /\ (forall j, Link.from link <= j < Link.to link - 2 -> ~ occurs_at doc CLOSE j).
Proof. exact findEnclosingWikilink_facts. Qed.

(** The text between the last ["[["] before a caret and the caret holds
    no further ["[["]. *)
Lemma no_opening_inside doc p :
  0 <= p ->
  JS.lastIndexOf doc OPEN (p - 1) <> -1 ->
  JS.indexOf (JS.slice doc (JS.lastIndexOf doc OPEN (p - 1)) p) OPEN 2 = -1.
Proof.
  intros Hp Hopen. set (open := JS.lastIndexOf doc OPEN (p - 1)) in *.
  pose proof (lastIndexOf_range _ _ _ Hopen) as Ho. fold open in Ho.
  pose proof (length_nonneg doc) as Hlen.
  assert (Hol : open <= JS.length doc) by (unfold JS.clamp in Ho; lia).
  rewrite slice_units by lia.
  set (e := Z.max open (Z.min p (JS.length doc))).
  destruct (Z.eq_dec (JS.indexOf (JS.units doc open e) OPEN 2) (-1)) as [|Hfound];
    [assumption|exfalso].
  pose proof (indexOf_occurs _ _ _ Hfound) as Hocc.
  pose proof (indexOf_ge _ _ _ Hfound) as Hge.
  set (i := JS.indexOf (JS.units doc open e) OPEN 2) in *.
  pose proof (occurs_at_fits _ _ _ Hocc ltac:(discriminate)) as Hfit.
  change (JS.length OPEN) with 2 in Hfit.
  rewrite length_units in Hfit, Hge by (unfold e; lia).
  apply occurs_at_units_inside in Hocc; [|unfold e; lia..|discriminate].
  apply (lastIndexOf_last doc OPEN (p - 1) (open + i) Hopen); [|exact Hocc].
  fold open. unfold JS.clamp in *. unfold e in *. lia.
Qed.

Lemma extractCompletedWikilink_unguarded :
  forall (doc : jsstring) (p : Z),
    0 <= p ->
    extractCompletedWikilink doc p
    = let open := JS.lastIndexOf doc OPEN (p - 1) in
      let text := JS.slice doc open p in
      if (open =? -1) || negb (JS.endsWith text CLOSE) then None
      else Some {| Link.from := open; Link.to := p; Link.text := text |}.
Proof.
  intros doc p Hp. unfold extractCompletedWikilink. cbv zeta.
  destruct (Z.eqb_spec (JS.lastIndexOf doc OPEN (p - 1)) (-1)) as [|Hopen];
    [reflexivity|].
  simpl. destruct (JS.endsWith _ CLOSE); [|reflexivity]. simpl.
  rewrite (no_opening_inside doc p Hp Hopen). reflexivity.
Qed.

(** X7.  For a caret position that is not negative the test for a second
    ["[["] in [extractCompletedWikilink] never rejects: the function
    answers with the text from the last ["[["] before the caret up to the
    caret whenever there is such a ["[["] and that text ends with
    ["]]"].  So a link completed inside an unclosed outer link, as in
    ["[[a [[b|c]]"], is accepted. *)
Theorem extractCompletedWikilink_last_opening :
  forall (doc : jsstring) (p : Z),
    0 <= p ->
    extractCompletedWikilink doc p
    = let open := JS.lastIndexOf doc OPEN (p - 1) in
      let text := JS.slice doc open p in
      if (open =? -1) || negb (JS.endsWith text CLOSE) then None
      else Some {| Link.from := open; Link.to := p; Link.text := text |}.
Proof. exact extractCompletedWikilink_unguarded. Qed.

Lemma endsWith_opened (text rest : jsstring) (n : nat) :
  text = firstn n (OPEN ++ rest) ->
  JS.endsWith text CLOSE = true ->
  JS.startsWith text OPEN = true /\ (4 <= List.length text)%nat.
Proof.
  intros -> Hends. change OPEN with [91%N; 91%N] in *.
  change CLOSE with [93%N; 93%N] in Hends.
  assert (Hthree : forall x : N, JS.endsWith [91%N; 91%N; x] [93%N; 93%N] = false).
  { intros x. unfold JS.endsWith. simpl. destruct (N.eqb x 93); reflexivity. }
  destruct n as [|[|[|n]]]; try (vm_compute in Hends; discriminate Hends).
  destruct rest as [|x rest]; [vm_compute in Hends; discriminate Hends|].
  destruct n as [|n]; [simpl in Hends; rewrite Hthree in Hends; discriminate|].
  destruct rest as [|y rest]; [simpl in Hends; rewrite Hthree in Hends; discriminate|].
  split; [reflexivity|]. simpl. lia.
Qed.

Lemma extractCompletedWikilink_facts :
  forall (doc : jsstring) (cursorPos : Z) (link : Link.t),
    extractCompletedWikilink doc cursorPos = Some link ->
    Link.to link = cursorPos
    /\ 0 <= Link.from link
    /\ Link.from link + JS.length (Link.text link) <= JS.length doc
    /\ Link.text link
       = JS.units doc (Link.from link) (Link.from link + JS.length (Link.text link))
    /\ 4 <= JS.length (Link.text link)
    /\ JS.startsWith (Link.text link) OPEN = true
    /\ JS.endsWith (Link.text link) CLOSE = true
    /\ JS.indexOf (Link.text link) OPEN 2 = -1.
Proof.
  intros doc p link. unfold extractCompletedWikilink.
  destruct (Z.eqb_spec (JS.lastIndexOf doc OPEN (p - 1)) (-1)) as [|Hopen]; [discriminate|].
  set (open := JS.lastIndexOf doc OPEN (p - 1)) in *.
  destruct (JS.endsWith (JS.slice doc open p) CLOSE) eqn:Hends; [|discriminate].
  destruct (Z.eqb_spec (JS.indexOf (JS.slice doc open p) OPEN 2) (-1)) as [Hnone|];
    [|discriminate].
  intros [= <-]. simpl.
  pose proof (lastIndexOf_range _ _ _ Hopen) as Ho. fold open in Ho.
  pose proof (lastIndexOf_occurs _ _ _ Hopen) as [_ Hocc]. fold open in Hocc.
  pose proof (length_nonneg doc) as Hlen.
  assert (Hol : open <= JS.length doc) by (unfold JS.clamp in Ho; lia).
  apply startsWith_spec in Hocc as [rest Hrest].
  assert (Hshape : exists n, JS.slice doc open p = firstn n (OPEN ++ rest)
                             /\ (open + Z.of_nat n <= JS.length doc \/ n = 0%nat)
                             /\ JS.slice doc open p
                                = JS.units doc open (open + Z.of_nat n)).
  { unfold JS.slice. set (from := JS.relative (JS.length doc) open).
    assert (from = open) as ->.
    { unfold from, JS.relative. destruct (Z.ltb_spec open 0); lia. }
    set (to := JS.relative (JS.length doc) p).
    assert (Hto : to <= JS.length doc).
    { unfold to, JS.relative. destruct (Z.ltb_spec p 0); lia. }
    exists (Z.to_nat (Z.max (to - open) 0)). split; [|split].
    - unfold JS.units. rewrite Hrest. f_equal. lia.
    - lia.
    - f_equal. lia. }
  destruct Hshape as (n & Hshape & Hfits & Hunits).
  destruct (endsWith_opened _ _ _ Hshape Hends) as [Hstarts Hfour].
  assert (Hn : JS.length (JS.slice doc open p) = Z.of_nat n).
  { assert (n <> 0%nat) by (intros ->; rewrite Hshape in Hfour; simpl in Hfour; lia).
    rewrite Hunits, length_units; lia. }
  assert (Hfour' : 4 <= JS.length (JS.slice doc open p)) by (unfold JS.length; lia).
  conjuncts; try assumption; try lia.
  rewrite Hn. exact Hunits.
Qed.

(** X8.  A link [extractCompletedWikilink] answers with ends at the caret,
    starts with ["[["], ends with ["]]"], is at least four code units
    long, lies in the document, and holds no second ["[["]. *)
Theorem extractCompletedWikilink_sound :
  forall (doc : jsstring) (cursorPos : Z) (link : Link.t),
    extractCompletedWikilink doc cursorPos = Some link ->
    Link.to link = cursorPos
    /\ 0 <= Link.from link
    /\ Link.from link + JS.length (Link.text link) <= JS.length doc
    /\ Link.text link
       = JS.units doc (Link.from link) (Link.from link + JS.length (Link.text link))
    /\ 4 <= JS.length (Link.text link)
    /\ JS.startsWith (Link.text link) OPEN = true
    /\ JS.endsWith (Link.text link) CLOSE = true
    /\ JS.indexOf (Link.text link) OPEN 2 = -1.
Proof. exact extractCompletedWikilink_facts. Qed.

End AliasReplacementMore.

(* ===================================================================== *)
(** * What the alias replacement plugin queues *)
(* ===================================================================== *)

Section AliasReplacementQueue.

Import Editor CMLinkAliasReplacementPlugin.

Ltac conjuncts := repeat match goal with |- _ /\ _ => split end.

(** The dispatch queued for a link, from the offset of its pipe and the
    rule found for its alias. *)
Definition replacement_of (u : ViewUpdate) (link : Link.t) (rule : PrefixMapping.t)
  : Timeout :=
  let start := Link.from link + (JS.indexOf (Link.text link) (JS.lit "|") 0 + 1) in
  {| timeout_view := view u;
     timeout_spec :=
       {| changes_from := start;
          changes_to := start + JS.length (PrefixMapping.prefix rule);
          changes_insert := PrefixMapping.emoji rule;
          spec_selection := selection (update_state u);
          spec_userEvent := INPUT |} |}.

(** The alias of a link text: what stands between the first pipe and the
    last two code units. *)
Definition alias_of (text : jsstring) : jsstring :=
  JS.slice text (JS.indexOf text (JS.lit "|") 0 + 1) (-2).

Lemma processAlias_cases u link :
  processAlias u link = []
  \/ exists rule,
       JS.indexOf (Link.text link) (JS.lit "|") 0 <> -1
       /\ alias_of (Link.text link) <> []
       /\ JS.find (fun m => JS.startsWith (alias_of (Link.text link))
                                          (PrefixMapping.prefix m))
                  (facet (update_state u)) = Some rule
       /\ PrefixMapping.emoji rule <> []
       /\ PrefixMapping.emoji rule <> alias_of (Link.text link)
       /\ processAlias u link = [replacement_of u link rule].
Proof.
  unfold processAlias, extractAlias, resolveEmoji, alias_of, replacement_of.
  destruct (Z.eqb_spec (JS.indexOf (Link.text link) (JS.lit "|") 0) (-1)) as [|Hpipe];
    [left; reflexivity|].
  destruct (JS.slice _ _ (-2)) as [|c alias] eqn:Halias; [left; reflexivity|].
  destruct (JS.find _ _) as [rule|] eqn:Hrule; [|left; reflexivity].
  cbn [AliasInfo.alias AliasInfo.from AliasInfo.prefixLength]. rewrite Hrule.
  destruct (PrefixMapping.emoji rule) as [|e emoji] eqn:Hemoji; [left; reflexivity|].
  destruct (JS.eqb (c :: alias) (e :: emoji)) eqn:Heq; [left; reflexivity|].
  right. exists rule. rewrite Hemoji.
  conjuncts; try assumption; try discriminate; try reflexivity.
  apply eqb_neq in Heq. congruence.
Qed.

(** X9.  Alias processing queues at most one dispatch.  When it queues
    one, the rule whose prefix gives the length of the replaced range and
    the rule whose emoji is inserted are the same rule, the first of the
    rule set whose prefix the alias starts with; the emoji is neither
    empty nor the whole alias; the dispatch carries the selection of the
    update's state and the user event ["input"]. *)
Theorem processAlias_queues_one_rule :
  forall (u : ViewUpdate) (link : Link.t),
    processAlias u link = []
    \/ exists rule,
         JS.indexOf (Link.text link) (JS.lit "|") 0 <> -1
         /\ alias_of (Link.text link) <> []
         /\ JS.find (fun m => JS.startsWith (alias_of (Link.text link))
                                            (PrefixMapping.prefix m))
                    (facet (update_state u)) = Some rule
         /\ PrefixMapping.emoji rule <> []
         /\ PrefixMapping.emoji rule <> alias_of (Link.text link)
         /\ processAlias u link = [replacement_of u link rule].
Proof. exact processAlias_cases. Qed.

(** A link that lies in the document with its text. *)
Definition link_in (doc : jsstring) (link : Link.t) : Prop :=
  0 <= Link.from link
  /\ Link.from link + JS.length (Link.text link) <= JS.length doc
  /\ Link.text link
     = JS.units doc (Link.from link) (Link.from link + JS.length (Link.text link)).

Lemma replacement_in_link u doc link rule :
  link_in doc link ->
  JS.indexOf (Link.text link) (JS.lit "|") 0 <> -1 ->
  alias_of (Link.text link) <> [] ->
  JS.startsWith (alias_of (Link.text link)) (PrefixMapping.prefix rule) = true ->
  let spec := timeout_spec (replacement_of u link rule) in
  Link.from link < changes_from spec
  /\ changes_from spec <= changes_to spec
  /\ changes_to spec + 2 <= Link.from link + JS.length (Link.text link)
  /\ JS.units doc (changes_from spec) (changes_to spec) = PrefixMapping.prefix rule
  /\ applyChanges doc spec
     = Some (JS.units doc 0 (changes_from spec)
             ++ PrefixMapping.emoji rule
             ++ JS.units doc (changes_to spec) (JS.length doc)).
Proof.
  intros (Hfrom & Hfits & Htext) Hpipe Halias Hstarts. unfold alias_of in *.
  set (text := Link.text link) in *. set (p := JS.indexOf text (JS.lit "|") 0) in *.
  pose proof (indexOf_occurs _ _ _ Hpipe) as Hocc. fold p in Hocc.
  pose proof (occurs_at_fits _ _ _ Hocc ltac:(discriminate)) as Hp.
  change (JS.length (JS.lit "|")) with 1 in Hp.
  destruct Hocc as [Hp0 _].
  rewrite slice_but_two in Halias, Hstarts by lia.
  assert (Hroom : p + 1 < JS.length text - 2).
  { destruct (Z_lt_ge_dec (p + 1) (JS.length text - 2)) as [|Hge]; [assumption|].
    exfalso. apply Halias. rewrite Z.max_l by lia. unfold JS.units.
    rewrite Z.sub_diag. reflexivity. }
  rewrite Z.max_r in Hstarts by lia.
  pose proof (startsWith_length _ _ Hstarts) as Hlen.
  assert (Hprefix : JS.length (PrefixMapping.prefix rule) <= JS.length text - 2 - (p + 1)).
  { rewrite <- (length_units text (p + 1) (JS.length text - 2)) by lia.
    apply Nat2Z.inj_le in Hlen. exact Hlen. }
  pose proof (length_nonneg (PrefixMapping.prefix rule)) as Hnn.
  assert (Hunits : JS.units doc (Link.from link + (p + 1))
                     (Link.from link + (p + 1) + JS.length (PrefixMapping.prefix rule))
                   = PrefixMapping.prefix rule).
  { pose proof (units_startsWith _ _ 0 ltac:(lia) Hstarts) as H.
    rewrite units_units in H by lia.
    assert (Hdoc : JS.units text (p + 1 + 0)
                     (p + 1 + (0 + JS.length (PrefixMapping.prefix rule)))
                   = JS.units doc (Link.from link + (p + 1 + 0))
                       (Link.from link
                        + (p + 1 + (0 + JS.length (PrefixMapping.prefix rule))))).
    { clearbody p text. rewrite Htext at 1. apply units_units; lia. }
    rewrite Hdoc in H. etransitivity; [|exact H]. f_equal; lia. }
  cbn [replacement_of timeout_spec changes_from changes_to changes_insert].
  fold text. fold p. conjuncts; try lia; [exact Hunits|].
  unfold applyChanges.
  cbn [changes_from changes_to changes_insert].
  replace ((0 <=? _) && _ && _) with true; [reflexivity|].
  symmetry. rewrite !andb_true_iff, !Z.leb_le. lia.
Qed.

(** X10.  For a link that lies in the document with its text, the range
    a queued dispatch replaces lies inside the link, behind its first
    code unit and before its last two, and holds exactly the prefix of
    the rule whose emoji is inserted; the editor accepts the change, and
    the new document is the old one with that prefix exchanged for the
    emoji. *)
Theorem processAlias_replaces_the_prefix :
  forall (u : ViewUpdate) (doc : jsstring) (link : Link.t) (t : Timeout),
    link_in doc link ->
    In t (processAlias u link) ->
    exists rule,
      In rule (facet (update_state u))
      /\ changes_insert (timeout_spec t) = PrefixMapping.emoji rule
      /\ Link.from link < changes_from (timeout_spec t)
      /\ changes_from (timeout_spec t) <= changes_to (timeout_spec t)
      /\ changes_to (timeout_spec t) + 2
         <= Link.from link + JS.length (Link.text link)
      /\ JS.units doc (changes_from (timeout_spec t)) (changes_to (timeout_spec t))
         = PrefixMapping.prefix rule
      /\ applyChanges doc (timeout_spec t)
         = Some (JS.units doc 0 (changes_from (timeout_spec t))
                 ++ PrefixMapping.emoji rule
                 ++ JS.units doc (changes_to (timeout_spec t)) (JS.length doc)).
Proof.
  intros u doc link t Hlink Hin.
  destruct (processAlias_cases u link) as [Hnone|(rule & Hpipe & Halias & Hrule & _ & _ & Hone)].
  - rewrite Hnone in Hin. destruct Hin.
  - rewrite Hone in Hin. destruct Hin as [<-|[]].
    apply find_some in Hrule as [Hmember Hstarts].
    destruct (replacement_in_link u doc link rule Hlink Hpipe Halias Hstarts)
      as (H1 & H2 & H3 & H4 & H5).
    exists rule. conjuncts; try assumption. reflexivity.
Qed.

End AliasReplacementQueue.

(* ===================================================================== *)
(** * The two detectors *)
(* ===================================================================== *)

Section Detectors.

Import Editor CMLinkAliasReplacementPlugin.

Ltac conjuncts := repeat match goal with |- _ /\ _ => split end.

(** Two code units before the caret that are ["]]"]: the caret lies in
    the document, at least two code units in. *)
Lemma tail_is_close doc p :
  sliceString doc (Z.max 0 (p - 2)) p = CLOSE ->
  2 <= p <= JS.length doc /\ occurs_at doc CLOSE (p - 2).
Proof.
  unfold sliceString. intros H.
  pose proof (length_nonneg doc) as Hlen.
  set (f := JS.clamp (Z.max 0 (p - 2)) 0 (JS.length doc)) in *.
  set (t := Z.max f (JS.clamp p 0 (JS.length doc))) in *.
  assert (Hft : JS.length (JS.units doc f t) = t - f).
  { apply length_units; unfold t, f, JS.clamp; lia. }
  rewrite H in Hft. change (JS.length CLOSE) with 2 in Hft.
  assert (Hp : 2 <= p <= JS.length doc /\ f = p - 2 /\ t = p)
    by (unfold t, f, JS.clamp in *; lia).
  destruct Hp as (Hp & Hf & Ht). split; [exact Hp|].
  apply units_occurs; [lia|]. change (JS.length CLOSE) with 2.
  rewrite <- Hf. replace (f + 2) with t by lia. exact H.
Qed.

(** With ["]]"] before the caret, the text from the last ["[["] before
    the caret up to the caret ends with ["]]"]. *)
Lemma completed_text_closed doc p :
  2 <= p <= JS.length doc -> occurs_at doc CLOSE (p - 2) ->
  JS.lastIndexOf doc OPEN (p - 1) <> -1 ->
  JS.lastIndexOf doc OPEN (p - 1) + 4 <= p
  /\ JS.endsWith (JS.slice doc (JS.lastIndexOf doc OPEN (p - 1)) p) CLOSE = true.
Proof.
  intros Hp Hclose Hopen. set (open := JS.lastIndexOf doc OPEN (p - 1)) in *.
  pose proof (lastIndexOf_range _ _ _ Hopen) as Ho. fold open in Ho.
  pose proof (lastIndexOf_occurs _ _ _ Hopen) as Hocc. fold open in Hocc.
  assert (Hle : open <= p - 2 + 1) by (unfold JS.clamp in Ho; lia).
  pose proof (close_after_open _ _ _ Hocc Hclose Hle) as Hgap.
  split; [lia|].
  rewrite slice_units by lia.
  replace (Z.max open (Z.min p (JS.length doc))) with p by lia.
  apply endsWith_units.
  - rewrite length_units by lia. change (JS.length CLOSE) with 2. lia.
  - rewrite length_units by lia. change (JS.length CLOSE) with 2.
    rewrite units_units by lia.
    replace (open + (p - open - 2)) with (p - 2) by lia.
    replace (open + (p - open)) with (p - 2 + JS.length CLOSE)
      by (change (JS.length CLOSE) with 2; lia).
    apply occurs_at_units, Hclose.
Qed.

(** X11.  The link completion detector processes a link exactly when the
    selection is a collapsed caret, the two code units before it are
    ["]]"], and some ["[["] begins before it; the link is then the text
    from the last such ["[["] up to the caret.  Neither of the two tests
    inside [extractCompletedWikilink] can reject at that point. *)
Theorem handleLinkCompletion_fires_on_last_opening :
  forall u : ViewUpdate,
    let doc := doc (update_state u) in
    let sel := main (selection (update_state u)) in
    let p := range_from sel in
    let open := JS.lastIndexOf doc OPEN (p - 1) in
    handleLinkCompletion u
    = if empty sel
         && JS.eqb (sliceString doc (Z.max 0 (p - 2)) p) CLOSE
         && negb (open =? -1)
      then processAlias u {| Link.from := open; Link.to := p;
                             Link.text := JS.slice doc open p |}
      else [].
Proof.
  intros u doc sel p open. unfold handleLinkCompletion.
  fold doc. fold sel. fold p.
  destruct (empty sel); [|reflexivity]. cbn [negb andb].
  destruct (JS.eqb (sliceString doc (Z.max 0 (p - 2)) p) CLOSE) eqn:Htail;
    [|reflexivity].
  cbn [negb andb]. apply eqb_eq in Htail.
  destruct (tail_is_close doc p Htail) as [Hp Hclose].
  rewrite extractCompletedWikilink_unguarded by lia. cbv zeta. fold open.
  destruct (Z.eqb_spec open (-1)) as [|Hopen]; [reflexivity|].
  destruct (completed_text_closed doc p Hp Hclose Hopen) as [_ Hends].
  fold open in Hends. rewrite Hends. reflexivity.
Qed.

Lemma handleLinkCompletion_link u t :
  In t (handleLinkCompletion u) ->
  exists link, link_in (doc (update_state u)) link /\ In t (processAlias u link).
Proof.
  unfold handleLinkCompletion.
  destruct (negb (empty _)); [intros []|].
  destruct (negb (JS.eqb _ CLOSE)); [intros []|].
  destruct (extractCompletedWikilink _ _) as [link|] eqn:Hlink; [|intros []].
  intros Hin. exists link. split; [|exact Hin].
  apply extractCompletedWikilink_facts in Hlink as (_ & H1 & H2 & H3 & _).
  repeat split; assumption.
Qed.

Lemma handleCaretExit_link u t :
  In t (handleCaretExit u) ->
  exists link, link_in (doc (update_state u)) link /\ In t (processAlias u link).
Proof.
  unfold handleCaretExit.
  destruct (_ || _); [intros []|].
  destruct (_ =? _); [intros []|].
  destruct (findEnclosingWikilink _ _) as [link|] eqn:Hlink; [|intros []].
  destruct (_ && _); [intros []|].
  intros Hin. exists link. split; [|exact Hin].
  apply findEnclosingWikilink_facts in Hlink as (H0 & _ & H4 & Hlen & Htext & _).
  assert (Hl : JS.length (Link.text link) = Link.to link - Link.from link).
  { rewrite Htext. apply length_units; lia. }
  unfold link_in. rewrite Hl. conjuncts; try lia.
  replace (Link.from link + (Link.to link - Link.from link)) with (Link.to link) by lia.
  exact Htext.
Qed.

Lemma update_link u t :
  In t (update u) ->
  exists link, link_in (doc (update_state u)) link /\ In t (processAlias u link).
Proof.
  unfold update. intros Hin. apply in_app_or in Hin as [Hin|Hin].
  - destruct (docChanged u); [|destruct Hin].
    apply in_flat_map in Hin as (tr & _ & Hin).
    destruct (negb (isUserEvent tr INPUT)); [destruct Hin|].
    apply handleLinkCompletion_link, Hin.
  - destruct (selectionSet u); [|destruct Hin].
    apply handleCaretExit_link, Hin.
Qed.

(** X12.  Whatever an update queues is a sound edit of the document of
    the update's state: the editor accepts the change, the replaced range
    holds exactly the prefix of a rule of the rule set, the inserted text
    is that rule's emoji and is not empty, and the dispatch targets the
    update's view, sets the selection of the update's state and is tagged
    as the user event ["input"]. *)
Theorem update_queues_sound_replacements :
  forall (u : ViewUpdate) (t : Timeout),
    In t (update u) ->
    let doc := doc (update_state u) in
    let spec := timeout_spec t in
    timeout_view t = view u
    /\ spec_selection spec = selection (update_state u)
    /\ spec_userEvent spec = INPUT
    /\ exists rule,
         In rule (facet (update_state u))
         /\ changes_insert spec = PrefixMapping.emoji rule
         /\ PrefixMapping.emoji rule <> []
         /\ JS.units doc (changes_from spec) (changes_to spec)
            = PrefixMapping.prefix rule
         /\ applyChanges doc spec
            = Some (JS.units doc 0 (changes_from spec)
                    ++ PrefixMapping.emoji rule
                    ++ JS.units doc (changes_to spec) (JS.length doc)).
Proof.
  intros u t Hin doc spec.
  destruct (update_link u t Hin) as (link & Hlink & Ht).
  destruct (processAlias_cases u link)
    as [Hnone|(rule & Hpipe & Halias & Hrule & Hemoji & _ & Hone)].
  - rewrite Hnone in Ht. destruct Ht.
  - rewrite Hone in Ht. destruct Ht as [<-|[]].
    apply find_some in Hrule as [Hmember Hstarts].
    destruct (replacement_in_link u doc link rule Hlink Hpipe Halias Hstarts)
      as (_ & _ & _ & H4 & H5).
    conjuncts; try reflexivity.
    exists rule. conjuncts; try assumption. reflexivity.
Qed.

End Detectors.

(* ===================================================================== *)
(** * The two pipelines together *)
(* ===================================================================== *)

Section Pipelines.

Import Editor buildDecorations CMLinkAliasReplacementPlugin.

Ltac conjuncts := repeat match goal with |- _ /\ _ => split end.

Lemma indexOf_from_skip (a s pat : jsstring) (c : N) (start : nat) :
  ~ In c a -> hd_error pat = Some c ->
  JS.indexOf_from (a ++ s) pat start
  = JS.indexOf_from s pat (start + List.length a).
Proof.
  intros Ha Hpat. revert start. induction a as [|x a IH]; intros start; simpl app.
  - rewrite Nat.add_0_r. reflexivity.
  - cbn [JS.indexOf_from].
    replace (JS.startsWith (x :: a ++ s) pat) with false.
    + rewrite IH by (intros H; apply Ha; right; exact H).
      f_equal. simpl. lia.
    + destruct pat as [|p pat]; [discriminate|]. injection Hpat as ->.
      simpl. destruct (N.eqb_spec x c) as [->|]; [|reflexivity].
      destruct Ha. left. reflexivity.
Qed.

(** X13.  On a well-formed link text the alias the replacement plugin
    extracts (after the first pipe, without the last two code units) is
    the alias the parser of the decoration pipeline extracts. *)
Theorem alias_extractions_agree :
  forall target alias : jsstring,
    no_unit parse.PIPE target -> no_unit parse.RBRACKET target ->
    no_unit parse.RBRACKET alias ->
    let text := JS.lit "[[" ++ target ++ JS.lit "|" ++ alias ++ JS.lit "]]" in
    alias_of text = alias /\ snd (parse.parseWikiLink text) = alias.
Proof.
  intros target alias Hp Ht Ha text. split.
  2:{ unfold text. rewrite parseWikiLink_well_formed by assumption. reflexivity. }
  unfold alias_of.
  assert (Hpipe : JS.indexOf text (JS.lit "|") 0 = 2 + JS.length target).
  { unfold JS.indexOf. change (Z.to_nat (JS.clamp 0 0 (JS.length text))) with 0%nat.
    rewrite skipn_O. unfold text.
    change (JS.lit "[[" ++ target ++ JS.lit "|" ++ alias ++ JS.lit "]]")
      with ([91%N; 91%N] ++ target ++ JS.lit "|" ++ alias ++ JS.lit "]]").
    rewrite (indexOf_from_skip [91%N; 91%N] _ _ parse.PIPE); [|intros [H|[H|[]]]; discriminate|reflexivity].
    rewrite (indexOf_from_skip target _ _ parse.PIPE) by (assumption || reflexivity).
    change (JS.lit "|" ++ alias ++ JS.lit "]]") with (124%N :: alias ++ JS.lit "]]").
    cbn [JS.indexOf_from].
    replace (JS.startsWith (124%N :: alias ++ JS.lit "]]") (JS.lit "|")) with true
      by (symmetry; apply (startsWith_app (alias ++ JS.lit "]]") [124%N])). unfold JS.length. simpl List.length. lia. }
  rewrite Hpipe.
  assert (Hlen : JS.length text = 2 + JS.length target + 1 + JS.length alias + 2).
  { unfold text, JS.length. rewrite !List.length_app. simpl List.length. lia. }
  pose proof (length_nonneg target). pose proof (length_nonneg alias).
  rewrite slice_but_two by lia. rewrite Hlen.
  replace (Z.max _ _) with (2 + JS.length target + 1 + JS.length alias) by lia.
  unfold JS.units, text.
  replace (Z.to_nat (2 + JS.length target + 1))
    with (List.length (JS.lit "[[" ++ target ++ JS.lit "|"))
    by (rewrite !List.length_app; unfold JS.length; simpl List.length; lia).
  replace (JS.lit "[[" ++ target ++ JS.lit "|" ++ alias ++ JS.lit "]]")
    with ((JS.lit "[[" ++ target ++ JS.lit "|") ++ alias ++ JS.lit "]]")
    by (rewrite <- !app_assoc; reflexivity).
  rewrite skipn_app, skipn_all, Nat.sub_diag, skipn_O. cbn [app].
  replace (Z.to_nat _) with (List.length alias) by (unfold JS.length; lia).
  rewrite firstn_app, Nat.sub_diag, firstn_all. simpl. apply app_nil_r.
Qed.

Lemma find_some_member {A} (p : A -> bool) (l : list A) (x : A) :
  In x l -> p x = true -> exists y, List.find p l = Some y /\ In y l.
Proof.
  intros Hin Hx. destruct (List.find p l) as [y|] eqn:E.
  - exists y. split; [reflexivity|]. apply find_some in E. tauto.
  - pose proof (List.find_none _ _ E x Hin). congruence.
Qed.

(** X14.  Replacement keeps a link classified.  When alias processing
    finds a rule for an alias, the annotation builder adds an annotation
    for that alias, and it adds one as well for the alias in which the
    rule's prefix is exchanged for its emoji; under a rule set of that
    one rule both annotations are the rule's. *)
Theorem replacement_keeps_classification :
  forall (builder : RangeSetBuilder) (settings : list PrefixMapping.t)
         (spec : MarkDecorationSpec) (alias : jsstring) (rule : PrefixMapping.t)
         (startFrom endTo : Z),
    JS.find (fun m => JS.startsWith alias (PrefixMapping.prefix m)) settings
    = Some rule ->
    let replaced :=
      PrefixMapping.emoji rule
      ++ skipn (List.length (PrefixMapping.prefix rule)) alias in
    (exists r, In r settings
               /\ decorate builder settings spec alias startFrom endTo
                  = builder ++ [annotation spec r startFrom endTo])
    /\ (exists r, In r settings
                  /\ decorate builder settings spec replaced startFrom endTo
                     = builder ++ [annotation spec r startFrom endTo])
    /\ (settings = [rule] ->
        decorate builder settings spec alias startFrom endTo
        = builder ++ [annotation spec rule startFrom endTo]
        /\ decorate builder settings spec replaced startFrom endTo
           = builder ++ [annotation spec rule startFrom endTo]).
Proof.
  intros builder settings spec alias rule startFrom endTo Hfind replaced.
  apply find_some in Hfind as [Hmember Hstarts].
  assert (Hbefore : rule_matches alias rule = true).
  { unfold rule_matches. rewrite Hstarts. reflexivity. }
  assert (Hafter : rule_matches replaced rule = true).
  { unfold rule_matches, replaced. rewrite startsWith_app. apply orb_true_r. }
  conjuncts.
  - destruct (find_some_member _ _ _ Hmember Hbefore) as (r & Hr & Hin).
    exists r. split; [exact Hin|]. rewrite decorate_find, Hr. reflexivity.
  - destruct (find_some_member _ _ _ Hmember Hafter) as (r & Hr & Hin).
    exists r. split; [exact Hin|]. rewrite decorate_find, Hr. reflexivity.
  - intros ->. rewrite !decorate_find. simpl. rewrite Hbefore, Hafter.
    split; reflexivity.
Qed.


End Pipelines.

(* ===================================================================== *)
(** * What the link walker reports *)
(* ===================================================================== *)

Section WalkerLinks.

Import Editor buildDecorations.

(** The node the roles end on, from a node and the siblings after it. *)
Fixpoint end_of (roles : list role) (n : SyntaxNode) (siblings : list SyntaxNode)
  : option SyntaxNode :=
  match roles with
  | [] => Some n
  | r :: roles' =>
      match siblings with
      | m :: rest => if has_role r m then end_of roles' m rest else None
      | [] => None
      end
  end.

(** The end node of the link with alias that begins with a node. *)
Definition link_end (n : SyntaxNode) (siblings : list SyntaxNode) : option SyntaxNode :=
  if has_role isFLinkStart n then end_of later_roles n siblings else None.

(** The span of the link that begins with a node, if one does. *)
Definition own_link (n : SyntaxNode) (siblings : list SyntaxNode) : list (Z * Z) :=
  match link_end n siblings with
  | Some e => [(from n, to e)]
  | None => []
  end.

(** The spans of the links of a tree and of a run of siblings, in
    document order: a node's own link, then the links below it, then the
    links of the siblings after it. *)
Fixpoint tree_links (n : SyntaxNode) (siblings : list SyntaxNode) : list (Z * Z) :=
  match n with
  | Node _ _ _ ts =>
      own_link n siblings
      ++ (fix forest (ts : list SyntaxNode) : list (Z * Z) :=
            match ts with
            | [] => []
            | t :: ts' => tree_links t ts' ++ forest ts'
            end) ts
  end.

Fixpoint forest_links (ts : list SyntaxNode) : list (Z * Z) :=
  match ts with
  | [] => []
  | t :: ts' => tree_links t ts' ++ forest_links ts'
  end.

Lemma tree_links_children n siblings :
  tree_links n siblings = own_link n siblings ++ forest_links (children n).
Proof.
  destruct n as [nm f t ts]. reflexivity.
Qed.

Lemma follow_end_of roles c :
  option_map (fun e => node (level e)) (follow roles c)
  = end_of roles (node (level c)) (after (level c)).
Proof.
  revert c. induction roles as [|r roles IH]; intros c; simpl; [reflexivity|].
  destruct (after (level c)) as [|m rest]; [reflexivity|].
  destruct (has_role r m); [|reflexivity]. apply IH.
Qed.

Context {St : Type} (view : EditorView)
        (callback : Z -> Z -> jsstring -> jsstring -> St -> St).

(** The callback on the span of one link. *)
Definition report_link (s : St) (span : Z * Z) : St :=
  let '(fname, alias) :=
    parse.parseWikiLink (sliceDoc (state view) (fst span) (snd span)) in
  callback (fst span) (snd span) fname alias s.

Lemma report_value (h : Heap) cursor c s :
  h !! cursor = Some c ->
  exists h1,
    bind (matchesInternalLink cursor) (report view callback cursor s) h
    = Some (fold_left report_link (own_link (node (level c)) (after (level c))) s, h1)
    /\ h1 !! cursor = Some c.
Proof.
  intros Hc. destruct (matchesInternalLink_run h cursor c Hc) as [last Hrun].
  pose proof (follow_end_of later_roles c) as Hend.
  unfold own_link, link_end.
  destruct (has_role isFLinkStart (node (level c))).
  2:{ rewrite (bind_run _ _ _ _ _ Hrun). eexists. split; [reflexivity|].
      apply lookup_app_l_Some, Hc. }
  destruct (follow later_roles c) as [e|]; cbn [option_map] in Hend; rewrite <- Hend;
    rewrite (bind_run _ _ _ _ _ Hrun).
  - assert (Hc1 : (h ++ [e; e]) !! cursor = Some c) by (apply lookup_app_l_Some, Hc).
    assert (He : (h ++ [e; e]) !! S (List.length h) = Some e).
    { replace (S (List.length h)) with (List.length h + 1)%nat by lia.
      rewrite lookup_app_r by lia.
      replace (List.length h + 1 - List.length h)%nat with 1%nat by lia. reflexivity. }
    unfold report.
    rewrite (bind_run _ _ _ _ _ (position_run _ _ _ Hc1)).
    rewrite (bind_run _ _ _ _ _ (position_run _ _ _ He)).
    cbv zeta. simpl fold_left. unfold report_link. simpl fst. simpl snd.
    destruct (parse.parseWikiLink _) as [fname alias].
    eexists. split; [reflexivity | exact Hc1].
  - eexists. split; [reflexivity|]. apply lookup_app_l_Some, Hc.
Qed.

(** With enough fuel the traversal reports the links of the cursor's node
    and of the siblings after it, subtrees included, in document order,
    and leaves the cursor on the level it started on. *)
Lemma traverse_links fuel :
  forall (cursor : ref) (s : St) (h : Heap) (c : TreeCursor),
    h !! cursor = Some c ->
    (forest_size (node (level c) :: after (level c)) <= fuel)%nat ->
    exists h' c',
      traverse view callback fuel cursor s h
      = Some (fold_left report_link
                (forest_links (node (level c) :: after (level c))) s, h')
      /\ h' !! cursor = Some c' /\ above c' = above c.
Proof.
  induction fuel as [|fuel IH]; intros cursor s h c Hc Hfuel.
  - unfold forest_size in Hfuel. simpl in Hfuel.
    pose proof (size_pos (node (level c))). lia.
  - rewrite traverse_round.
    destruct (report_value h cursor c s Hc) as (h1 & Hreport & Hc1).
    rewrite (bind_bind_run _ _ _ _ _ _ Hreport). clear Hreport.
    cbn [forest_links]. rewrite tree_links_children, !fold_left_app.
    set (s1 := fold_left report_link (own_link _ _) s).
    assert (Hsizes : (forest_size (children (node (level c))) <= fuel
                      /\ forest_size (after (level c)) <= fuel)%nat).
    { unfold forest_size in *. simpl in Hfuel.
      destruct (node (level c)) as [nm f t ts]. simpl in *. lia. }
    destruct Hsizes as [Hdown Hnext].
    assert (Hdescend : exists h2,
               bind (firstChild cursor) (descend view callback fuel cursor s1) h1
               = Some (fold_left report_link
                         (forest_links (children (node (level c)))) s1, h2)
               /\ h2 !! cursor = Some c).
    { unfold descend, firstChild, bind at 1. rewrite Hc1.
      destruct (children (node (level c))) as [|n rest] eqn:Hchildren.
      - eexists. split; [reflexivity | exact Hc1].
      - pose proof (lookup_lt_Some _ _ _ Hc1) as Hlt.
        destruct (IH cursor s1
                    (<[cursor := {| level := {| node := n; before := []; after := rest |};
                                    above := level c :: above c |}]> h1) _
                    (list_lookup_insert_eq _ _ _ Hlt) Hdown)
          as (h2 & c2 & Htrav & Hc2 & Habove).
        cbn [negb]. rewrite (bind_run _ _ _ _ _ Htrav).
        unfold parent, bind, ret. rewrite Hc2, Habove. simpl.
        eexists. split; [reflexivity|].
        rewrite list_lookup_insert_eq by (apply (lookup_lt_Some _ _ _ Hc2)).
        destruct c as [l a]. reflexivity. }
    destruct Hdescend as (h2 & Hdescend & Hc2).
    rewrite (bind_bind_run _ _ _ _ _ _ Hdescend).
    set (s2 := fold_left report_link (forest_links (children _)) s1).
    unfold continue, nextSibling, bind at 1. rewrite Hc2.
    destruct (after (level c)) as [|n rest] eqn:Hafter.
    + exists h2, c. repeat split. exact Hc2.
    + pose proof (lookup_lt_Some _ _ _ Hc2) as Hlt.
      destruct (IH cursor s2 (<[cursor := moved c n rest]> h2) _
                  (list_lookup_insert_eq _ _ _ Hlt) Hnext)
        as (h3 & c3 & Htrav & Hc3 & Habove).
      exists h3, c3. repeat split; assumption.
Qed.

End WalkerLinks.

(* ===================================================================== *)
(** * What the annotation set holds *)
(* ===================================================================== *)

Section AnnotationSet.

Import Editor buildDecorations.

Ltac conjuncts := repeat match goal with |- _ /\ _ => split end.

(** X16.  The link walker reports to its callback the links of the node
    the cursor stands on and of the siblings after it, subtrees included:
    for each node the link that begins with it, if the tree matcher finds
    one, then the links below the node, then those of the following
    siblings; each report carries the span from the start of the first
    node to the end of the end node and the two parts parsed from the
    document text of that span.  The walk always finishes. *)
Theorem findWikiLinks_reports_links_in_document_order :
  forall (St : Type) (view : EditorView)
         (callback : Z -> Z -> jsstring -> jsstring -> St -> St)
         (cursor : ref) (s : St) (h : Heap) (c : TreeCursor),
    h !! cursor = Some c ->
    exists h' : Heap,
      findWikiLinks view cursor callback s h
      = Some (fold_left (report_link view callback)
                (forest_links (node (level c) :: after (level c))) s, h').
Proof.
  intros St view callback cursor s h c Hc.
  unfold findWikiLinks. rewrite (bind_run _ _ _ _ _ (position_run _ _ _ Hc)).
  destruct (traverse_links view callback _ cursor s h c Hc (Nat.le_refl _))
    as (h' & c' & Htrav & _).
  exists h'. exact Htrav.
Qed.

(** The annotations the builder adds for the span of one link. *)
Definition annotations_of (view : EditorView) (settings : list PrefixMapping.t)
    (span : Z * Z) : list Range :=
  let alias := snd (parse.parseWikiLink (sliceDoc (state view) (fst span) (snd span))) in
  match List.find (rule_matches alias) settings with
  | Some rule => [annotation empty_spec rule (fst span) (snd span)]
  | None => []
  end.

Lemma fold_annotations view settings spans builder :
  fold_left
    (report_link view
       (fun startFrom endTo (fname alias : jsstring) builder =>
          decorate builder settings empty_spec alias startFrom endTo))
    spans builder
  = builder ++ flat_map (annotations_of view settings) spans.
Proof.
  revert builder. induction spans as [|span spans IH]; intros builder;
    cbn [fold_left flat_map].
  - rewrite app_nil_r. reflexivity.
  - rewrite IH, app_assoc. f_equal. unfold report_link, annotations_of.
    destruct (parse.parseWikiLink _) as [fname alias]. cbn [snd].
    rewrite decorate_find.
    destruct (List.find _ settings); [|rewrite app_nil_r]; reflexivity.
Qed.

Lemma buildLinkDecorations_annotations view settings :
  buildLinkDecorations view settings
  = Some (flat_map (annotations_of view settings)
            (forest_links [tree (state view)])).
Proof.
  unfold buildLinkDecorations, tree_cursor, alloc, findWikiLinks.
  unfold bind at 1. unfold bind at 1. unfold position. simpl lookup. cbv iota beta.
  match goal with
  | |- context [traverse ?v ?cb ?fuel ?cur ?s ?h] =>
      destruct (traverse_links v cb fuel cur s h
                  {| level := {| node := tree (state view); before := []; after := [] |};
                     above := [] |} eq_refl (Nat.le_refl _))
        as (h' & c' & -> & _)
  end.
  cbn [level node after]. rewrite fold_annotations. reflexivity.
Qed.




End AnnotationSet.

(* ===================================================================== *)
(** * Annotations come in document order *)
(* ===================================================================== *)

Section AnnotationOrder.

Import Editor buildDecorations.

Ltac conjuncts := repeat match goal with |- _ /\ _ => split end.

(** A syntax tree whose ranges nest: a node lies between [lo] and [hi],
    its range is not reversed, and its children follow one another inside
    it, each starting at or after the end of the one before. *)
Fixpoint nested (lo hi : Z) (n : SyntaxNode) : Prop :=
  match n with
  | Node _ f t ts =>
      lo <= f /\ f <= t /\ t <= hi
      /\ (fix chain (lo : Z) (ts : list SyntaxNode) : Prop :=
            match ts with
            | [] => True
            | x :: ts' => nested lo t x /\ chain (to x) ts'
            end) f ts
  end.

Fixpoint nested_forest (lo hi : Z) (ts : list SyntaxNode) : Prop :=
  match ts with
  | [] => True
  | x :: ts' => nested lo hi x /\ nested_forest (to x) hi ts'
  end.

Lemma nested_children lo hi n :
  nested lo hi n ->
  lo <= from n /\ from n <= to n /\ to n <= hi
  /\ nested_forest (from n) (to n) (children n).
Proof.
  destruct n as [nm f t ts]. cbn [nested from to children].
  intros (H1 & H2 & H3 & Hc). conjuncts; try assumption.
  clear -Hc. revert Hc. generalize f.
  induction ts as [|x ts IH]; intros lo' Hc; [exact I|].
  destruct Hc as [Hx Hrest]. split; [exact Hx | apply IH, Hrest].
Qed.

(** The end node of a link lies after its first node. *)
Lemma end_of_nested roles lo hi m rest e :
  nested_forest lo hi (m :: rest) ->
  end_of roles m rest = Some e ->
  to m <= to e /\ to e <= hi.
Proof.
  revert lo m rest. induction roles as [|r roles IH]; intros lo m rest [Hm Hrest];
    simpl.
  - intros [= <-]. apply nested_children in Hm. lia.
  - destruct rest as [|m' rest']; [discriminate|].
    destruct (has_role r m'); [|discriminate]. intros He.
    apply (IH (to m)) in He; [|exact Hrest].
    destruct Hrest as [Hm' _]. apply nested_children in Hm'. lia.
Qed.

Definition within (lo hi : Z) (span : Z * Z) : Prop :=
  lo <= fst span /\ fst span <= snd span /\ snd span <= hi.

Lemma within_wider lo hi lo' hi' spans :
  lo' <= lo -> hi <= hi' ->
  Forall (within lo hi) spans -> Forall (within lo' hi') spans.
Proof.
  intros Hlo Hhi. apply List.Forall_impl. unfold within. intros span. lia.
Qed.

Lemma ascending_app (l1 l2 : list (Z * Z)) (mid : Z) :
  StronglySorted Z.le (List.map fst l1) -> StronglySorted Z.le (List.map fst l2) ->
  Forall (fun span => fst span <= mid) l1 ->
  Forall (fun span => mid <= fst span) l2 ->
  StronglySorted Z.le (List.map fst (l1 ++ l2)).
Proof.
  intros H1 H2 Hlow Hhigh. induction l1 as [|a l1 IH]; [exact H2|].
  simpl in *. apply StronglySorted_inv in H1 as [H1 Ha].
  apply Forall_cons_iff in Hlow as [Hamid Hlow].
  constructor; [apply IH; assumption|].
  rewrite List.map_app. apply Forall_app. split; [exact Ha|].
  apply List.Forall_map. revert Hhigh. apply List.Forall_impl. intros b. lia.
Qed.

(** In a nested forest the links come with increasing starts, and each
    span lies inside the bounds and is not reversed. *)
Lemma forest_links_ascending (k : nat) :
  forall (ts : list SyntaxNode) (lo hi : Z),
    (forest_size ts <= k)%nat ->
    nested_forest lo hi ts ->
    Forall (within lo hi) (forest_links ts)
    /\ StronglySorted Z.le (List.map fst (forest_links ts)).
Proof.
  induction k as [|k IH]; intros ts lo hi Hsize Hnested.
  - destruct ts as [|x ts]; [split; constructor|].
    unfold forest_size in Hsize. simpl in Hsize. pose proof (size_pos x). lia.
  - destruct ts as [|x ts]; [split; constructor|].
    destruct Hnested as [Hx Hts].
    pose proof (nested_children _ _ _ Hx) as (Hlo & Hft & Hhi & Hchildren).
    assert (Hsizes : (forest_size (children x) <= k /\ forest_size ts <= k)%nat).
    { unfold forest_size in *. simpl in Hsize. destruct x as [nm f t cs].
      simpl in *. lia. }
    destruct (IH _ _ _ (proj1 Hsizes) Hchildren) as [Hcw Hcs].
    destruct (IH _ _ _ (proj2 Hsizes) Hts) as [Htw Htsorted].
    assert (Hown : Forall (within (from x) hi) (own_link x ts)
                   /\ Forall (fun span => fst span = from x) (own_link x ts)).
    { unfold own_link, link_end.
      destruct (has_role isFLinkStart x); [|split; constructor].
      destruct (end_of later_roles x ts) as [e|] eqn:He; [|split; constructor].
      destruct (end_of_nested _ lo hi x ts e (conj Hx Hts) He) as [H1 H2].
      split.
      - constructor; [unfold within; simpl; lia | constructor].
      - constructor; [reflexivity | constructor]. }
    destruct Hown as [Hown Hstart].
    cbn [forest_links]. rewrite tree_links_children. split.
    + rewrite !Forall_app. conjuncts.
      * apply (within_wider (from x) hi); [lia | lia | exact Hown].
      * apply (within_wider (from x) (to x)); [lia | lia | exact Hcw].
      * apply (within_wider (to x) hi); [lia | lia | exact Htw].
    + apply (ascending_app _ _ (to x)).
      * apply (ascending_app _ _ (from x)).
        -- unfold own_link. destruct (link_end x ts); simpl.
           ++ constructor; constructor.
           ++ constructor.
        -- exact Hcs.
        -- revert Hstart. apply List.Forall_impl. intros span. lia.
        -- revert Hcw. apply List.Forall_impl. unfold within. intros span. lia.
      * exact Htsorted.
      * rewrite Forall_app. split.
        -- revert Hstart. apply List.Forall_impl. intros span. lia.
        -- revert Hcw. apply List.Forall_impl. unfold within. intros span. lia.
      * revert Htw. apply List.Forall_impl. unfold within. intros span. lia.
Qed.

Lemma annotations_ascending view settings spans lo hi :
  Forall (within lo hi) spans ->
  StronglySorted Z.le (List.map fst spans) ->
  Forall (fun r => lo <= rfrom r /\ rfrom r <= rto r /\ rto r <= hi)
         (flat_map (annotations_of view settings) spans)
  /\ StronglySorted Z.le (List.map rfrom (flat_map (annotations_of view settings) spans))
  /\ Forall (fun r => In (rfrom r) (List.map fst spans))
            (flat_map (annotations_of view settings) spans).
Proof.
  induction spans as [|span spans IH]; intros Hw Hs; simpl.
  - conjuncts; constructor.
  - apply Forall_cons_iff in Hw as [Hspan Hw].
    simpl in Hs. apply StronglySorted_inv in Hs as [Hs Hle].
    destruct (IH Hw Hs) as (IH1 & IH2 & IH3).
    assert (IH3' : Forall (fun r => fst span = rfrom r \/ In (rfrom r) (List.map fst spans))
                          (flat_map (annotations_of view settings) spans)).
    { revert IH3. apply List.Forall_impl. intros r Hr. right. exact Hr. }
    unfold annotations_of at 1 3 5.
    destruct (List.find _ settings) as [rule|]; simpl.
    + conjuncts.
      * constructor; [exact Hspan | exact IH1].
      * constructor; [exact IH2|]. apply List.Forall_map.
        rewrite List.Forall_forall in IH3 |- *. intros r Hr.
        rewrite List.Forall_forall in Hle. apply Hle, IH3, Hr.
      * constructor; [left; reflexivity | exact IH3'].
    + conjuncts; assumption.
Qed.

(** X19.  For a syntax tree whose ranges nest, the annotations of the
    decoration set come with starts that do not decrease, as the range
    set builder of the editor requires of the calls of [add], and every
    annotation lies inside the range of the top node and is not
    reversed. *)
Theorem buildLinkDecorations_in_document_order :
  forall (view : EditorView) (settings : list PrefixMapping.t) (lo hi : Z),
    nested lo hi (tree (state view)) ->
    exists set : DecorationSet,
      buildLinkDecorations view settings = Some set
      /\ StronglySorted Z.le (List.map rfrom set)
      /\ Forall (fun r => lo <= rfrom r /\ rfrom r <= rto r /\ rto r <= hi) set.
Proof.
  intros view settings lo hi Hnested. eexists.
  split; [apply buildLinkDecorations_annotations|].
  destruct (forest_links_ascending _ [tree (state view)] lo hi (Nat.le_refl _))
    as [Hw Hs]; [split; [exact Hnested | exact I]|].
  destruct (annotations_ascending view settings _ lo hi Hw Hs) as (H1 & H2 & _).
  split; assumption.
Qed.

End AnnotationOrder.

(* ===================================================================== *)
(** * The grammar roles *)
(* ===================================================================== *)

Section GrammarRoles.

Import Editor buildDecorations.

Lemma includes_In (xs : list jsstring) (x : jsstring) :
  JS.includes xs x = true <-> In x xs.
Proof.
  unfold JS.includes. rewrite existsb_exists. split.
  - intros (y & Hy & Heq). apply eqb_eq in Heq as ->. exact Hy.
  - intros Hx. exists x. split; [exact Hx | apply eqb_refl].
Qed.

Lemma pair_included (xs ys : list jsstring) (a b : jsstring) :
  (forall x, In x xs -> In x ys) ->
  JS.includes xs a && JS.includes xs b = true ->
  JS.includes ys a && JS.includes ys b = true.
Proof.
  intros Hincl H. apply andb_true_iff in H as [Ha Hb].
  apply andb_true_iff. rewrite !includes_In in *. split; apply Hincl; assumption.
Qed.

(** X20.  Each of the five role tests asks only which fragments occur: a
    fragment list that passes a test still passes it when its fragments
    are reordered, repeated or joined by further fragments. *)
Theorem role_tests_tolerate_order_and_extras :
  forall fragments more : list jsstring,
    (forall x, In x fragments -> In x more) ->
    (isFLinkStart fragments = true -> isFLinkStart more = true)
    /\ (isInternalLinkWithAlias fragments = true -> isInternalLinkWithAlias more = true)
    /\ (isInternalLinksPipe fragments = true -> isInternalLinksPipe more = true)
    /\ (isInternalLinksAlias fragments = true -> isInternalLinksAlias more = true)
    /\ (isFLinkEnd fragments = true -> isFLinkEnd more = true).
Proof.
  intros fragments more Hincl.
  repeat split; apply pair_included; exact Hincl.
Qed.

End GrammarRoles.

(* ===================================================================== *)
(** * The further theorems at concrete inputs *)
(* ===================================================================== *)

Section MoreInstances.

Import Editor buildDecorations CMLinkAliasReplacementPlugin.

Lemma parseWikiLink_round_trip_witness :
  parse.parseWikiLink (JS.lit "[[InhaltA|InhaltB]]")
  = (JS.lit "InhaltA", JS.lit "InhaltB")
  /\ parse.parseWikiLink (JS.lit "[[|NurAlias]]") = ([], JS.lit "NurAlias").
Proof.
  split.
  - apply (parseWikiLink_round_trip (JS.lit "InhaltA") (JS.lit "InhaltB"));
      unfold no_unit; vm_compute; intuition discriminate.
  - apply (parseWikiLink_round_trip [] (JS.lit "NurAlias"));
      unfold no_unit; vm_compute; intuition discriminate.
Defined.

Lemma parseWikiLink_inverts_witness :
  no_unit parse.RBRACKET (JS.lit "B[[C")
  /\ ((JS.lit "A" = [] /\ JS.lit "B[[C" = [])
      \/ JS.lit "[[A|B[[C]]"
         = JS.lit "[[" ++ JS.lit "A" ++ JS.lit "|" ++ JS.lit "B[[C" ++ JS.lit "]]").
Proof.
  destruct (parseWikiLink_inverts (JS.lit "[[A|B[[C]]") (JS.lit "A") (JS.lit "B[[C")
              eq_refl) as (_ & _ & Halias & Hshape).
  split; [exact Halias | exact Hshape].
Defined.

Lemma combine_members_witness :
  In navigation (concat [[location; person]; [navigation]])
  /\ (exists m, In m (SettingsFacet.combine [[location; person]; [navigation]])
                /\ PrefixMapping.prefix m = PrefixMapping.prefix location)
  /\ (List.length (SettingsFacet.combine [[location; person]; [navigation]]) <= 3)%nat.
Proof.
  destruct (combine_members [[location; person]; [navigation]])
    as (Hfrom & Hkept & Hlength).
  split; [|split].
  - apply Hfrom. left. reflexivity.
  - apply Hkept. left. reflexivity.
  - exact Hlength.
Defined.

Lemma combine_distinct_prefixes_is_concatenation_witness :
  SettingsFacet.combine [[location]; [person]] = [location; person].
Proof.
  apply (combine_distinct_prefixes_is_concatenation [[location]; [person]]).
  constructor.
  - intros [H|[]]. discriminate H.
  - constructor; [intros [] | constructor].
Defined.

Lemma findEnclosingWikilink_sound_witness :
  Link.text scenario_link = JS.units scenario_doc 5 20
  /\ occurs_at scenario_doc OPEN 5
  /\ occurs_at scenario_doc CLOSE 18.
Proof.
  destruct (findEnclosingWikilink_sound scenario_doc 10 scenario_link eq_refl)
    as (_ & _ & _ & _ & Htext & Hopen & Hclose & _).
  split; [exact Htext|]. split; [exact Hopen | exact Hclose].
Defined.

(** A link completed inside an outer link that is still open. *)
Definition inner_doc : jsstring := JS.lit "[[a [[b|c]]".

Lemma extractCompletedWikilink_last_opening_witness :
  extractCompletedWikilink inner_doc 11
  = Some {| Link.from := 4; Link.to := 11; Link.text := JS.lit "[[b|c]]" |}.
Proof.
  rewrite (extractCompletedWikilink_last_opening inner_doc 11) by lia.
  reflexivity.
Defined.

Lemma extractCompletedWikilink_sound_witness :
  Link.to scenario_link = 20
  /\ 4 <= JS.length (Link.text scenario_link)
  /\ JS.startsWith (Link.text scenario_link) OPEN = true.
Proof.
  destruct (extractCompletedWikilink_sound scenario_doc 20 scenario_link eq_refl)
    as (Hto & _ & _ & _ & Hfour & Hstarts & _).
  split; [exact Hto|]. split; [exact Hfour | exact Hstarts].
Defined.

Definition scenario_queued : Timeout :=
  {| timeout_view := {| state := scenario_state |};
     timeout_spec := scenario_spec (caret 20) |}.

Lemma scenario_link_in : link_in scenario_doc scenario_link.
Proof. repeat split; vm_compute; discriminate. Qed.

Lemma processAlias_replaces_the_prefix_witness :
  exists rule,
    In rule [person]
    /\ JS.units scenario_doc 14 15 = PrefixMapping.prefix rule
    /\ applyChanges scenario_doc (scenario_spec (caret 20))
       = Some (JS.units scenario_doc 0 14 ++ PrefixMapping.emoji rule
               ++ JS.units scenario_doc 15 24).
Proof.
  destruct (processAlias_replaces_the_prefix scenario_update scenario_doc
              scenario_link scenario_queued scenario_link_in
              (or_introl eq_refl))
    as (rule & Hrule & _ & _ & _ & _ & Hprefix & Happlied).
  exists rule. split; [exact Hrule|]. split; [exact Hprefix | exact Happlied].
Defined.

Lemma update_queues_sound_replacements_witness :
  spec_userEvent (timeout_spec scenario_queued) = INPUT
  /\ exists rule,
       In rule [person]
       /\ JS.units scenario_doc 14 15 = PrefixMapping.prefix rule.
Proof.
  destruct (update_queues_sound_replacements scenario_update scenario_queued
              (or_introl eq_refl))
    as (_ & _ & Hevent & rule & Hrule & _ & _ & Hprefix & _).
  split; [exact Hevent|]. exists rule. split; [exact Hrule | exact Hprefix].
Defined.

Lemma alias_extractions_agree_witness :
  alias_of (JS.lit "[[Target|@Foo]]") = JS.lit "@Foo"
  /\ snd (parse.parseWikiLink (JS.lit "[[Target|@Foo]]")) = JS.lit "@Foo".
Proof.
  apply (alias_extractions_agree (JS.lit "Target") (JS.lit "@Foo"));
    unfold no_unit; vm_compute; intuition discriminate.
Defined.

Lemma replacement_keeps_classification_witness :
  decorate [] [person] empty_spec (JS.lit "@Foo") 5 20
  = [annotation empty_spec person 5 20]
  /\ decorate [] [person] empty_spec (bust ++ JS.lit "Foo") 5 21
     = [annotation empty_spec person 5 21].
Proof.
  split.
  - apply (replacement_keeps_classification [] [person] empty_spec (JS.lit "@Foo")
             person 5 20 eq_refl). reflexivity.
  - apply (replacement_keeps_classification [] [person] empty_spec (JS.lit "@Foo")
             person 5 21 eq_refl). reflexivity.
Defined.


(** A callback that keeps what it is called with. *)
Definition keep (startFrom endTo : Z) (fname alias : jsstring)
    (seen : list (Z * Z * jsstring * jsstring)) :=
  seen ++ [(startFrom, endTo, fname, alias)].

Definition at_top : TreeCursor :=
  {| level := {| node := scenario_tree; before := []; after := [] |}; above := [] |}.

Lemma findWikiLinks_reports_links_in_document_order_witness :
  exists h' : Heap,
    findWikiLinks {| state := scenario_state |} 0%nat keep [] [at_top]
    = Some ([(5, 20, JS.lit "Target", JS.lit "@Foo")], h').
Proof.
  destruct (findWikiLinks_reports_links_in_document_order _
              {| state := scenario_state |} keep 0%nat [] [at_top] at_top eq_refl)
    as [h' Hrun].
  exists h'. exact Hrun.
Defined.


Lemma scenario_tree_nested : nested 0 24 scenario_tree.
Proof. vm_compute. intuition discriminate. Qed.

Lemma buildLinkDecorations_in_document_order_witness :
  exists set : DecorationSet,
    buildLinkDecorations {| state := scenario_state |} [person] = Some set
    /\ StronglySorted Z.le (List.map rfrom set).
Proof.
  destruct (buildLinkDecorations_in_document_order {| state := scenario_state |}
              [person] 0 24 scenario_tree_nested) as (set & Hbuild & Hsorted & _).
  exists set. split; [exact Hbuild | exact Hsorted].
Defined.

Lemma role_tests_tolerate_order_and_extras_witness :
  isFLinkStart [JS.lit "x"; FLINKSTART; FLINK; FLINKSTART] = true.
Proof.
  apply (role_tests_tolerate_order_and_extras [FLINK; FLINKSTART]).
  - intros x [<-|[<-|[]]]; simpl; auto.
  - reflexivity.
Defined.

End MoreInstances.
